(** * action-read-yaml: the flatten-and-resolve engine

    A shallow embedding of [src/multi_read_yaml/index.js] (and of its
    single-document siblings [src/index.ts] and [src/action_read_yaml/index.js],
    which share [replaceVariables] and [resolveFields] verbatim).

    Conventions of the embedding:
    - a JavaScript string is a [string] (a sequence of one-byte code units);
    - a parsed YAML document is a [Value]; an object is an association list in
      the order [Object.entries] enumerates it.  Keys inherited from
      [Object.prototype] and the engine's special ordering of integer-like
      keys are outside the model;
    - numbers are the integer-valued ones, carried as [Z];
    - the [while] loop of [replaceVariables] is bounded by a [fuel] argument
      counting evaluations of its condition; running out of it is the
      distinguished result [Hung].

    Where the engine does more than the association list shows, the
    statements that depend on it say so in a hypothesis: [inherited_name]
    for the members of [Object.prototype] that [resolved[name]] finds,
    [ordinary_key] for the keys that [Object.entries] lists in the order of
    their writing, [safe_numbers] for the numbers whose string form is their
    decimal digits, [short_string] for texts below the engine's limit. *)

From Stdlib Require Import String Ascii List ZArith Lia Bool DecimalString.
Import ListNotations.
Open Scope string_scope.
Local Set Warnings "-register-all".

(** ** Document trees *)

Inductive Value : Type :=
| VNull : Value
| VBool (b : bool) : Value
| VNum (z : Z) : Value
| VStr (s : string) : Value
| VSeq (elems : list Value) : Value
| VMap (fields : list (string * Value)) : Value.

(** A plain JavaScript object as [Object.entries] sees it. *)
Definition Obj := list (string * Value).

(** [typeof value === "object"]: true of mappings, arrays and [null]. *)
Definition typeof_object (v : Value) : bool :=
  match v with
  | VNull | VSeq _ | VMap _ => true
  | _ => false
  end.

(** [typeof value === "string"] *)
Definition typeof_string (v : Value) : bool :=
  match v with VStr _ => true | _ => false end.

(** ** Objects used as maps *)

Module JsObject.

(** [obj[key]]: the own property, [None] for [undefined]. *)
Fixpoint get (key : string) (o : Obj) : option Value :=
  match o with
  | [] => None
  | (k, v) :: rest => if String.eqb k key then Some v else get key rest
  end.

(** [obj[key] = v]: an existing property keeps its place, a new one is
    added last. *)
Fixpoint set (key : string) (v : Value) (o : Obj) : Obj :=
  match o with
  | [] => [(key, v)]
  | (k, w) :: rest =>
      if String.eqb k key then (k, v) :: rest else (k, w) :: set key v rest
  end.

(** [key in obj], for own properties. *)
Definition has (key : string) (o : Obj) : bool :=
  match get key o with Some _ => true | None => false end.

End JsObject.

(** ** Conversions of the language *)

Definition string_of_nat (n : nat) : string :=
  NilZero.string_of_uint (Nat.to_uint n).

Definition string_of_Z (z : Z) : string :=
  NilZero.string_of_int (Z.to_int z).

Fixpoint join (sep : string) (parts : list string) : string :=
  match parts with
  | [] => ""
  | [p] => p
  | p :: rest => p ++ sep ++ join sep rest
  end.

(** [String(v)] / [`${v}`]: an object prints as [[object Object]], an array
    as its elements joined by commas with [null] elements left empty. *)
Fixpoint ToString (v : Value) : string :=
  match v with
  | VNull => "null"
  | VBool true => "true"
  | VBool false => "false"
  | VNum z => string_of_Z z
  | VStr s => s
  | VSeq elems =>
      join "," (map (fun e => match e with VNull => "" | _ => ToString e end) elems)
  | VMap _ => "[object Object]"
  end.

(** [!!v]: [null], [false], [0] and the empty string are falsy; every object,
    the empty one too, is truthy. *)
Definition truthy (v : Value) : bool :=
  match v with
  | VNull => false
  | VBool b => b
  | VNum z => negb (Z.eqb z 0)
  | VStr s => negb (String.eqb s "")
  | VSeq _ | VMap _ => true
  end.

(** [!!obj[key]] *)
Definition truthy_at (key : string) (o : Obj) : bool :=
  match JsObject.get key o with
  | Some v => truthy v
  | None => false
  end.

(** ** Strings: the pattern [/\$\(([^\)]+)\)/] and [String.prototype.replace] *)

Module JsString.

Definition dollar : ascii := "$"%char.
Definition lparen : ascii := "("%char.
Definition rparen : ascii := ")"%char.

Fixpoint drop (n : nat) (s : string) : string :=
  match n, s with
  | O, _ => s
  | S _, EmptyString => EmptyString
  | S n', String _ s' => drop n' s'
  end.

(** [[^\)]*] followed by [\)]: the text up to the first closing
    parenthesis, and the text after it. *)
Fixpoint until_rparen (s : string) : option (string * string) :=
  match s with
  | EmptyString => None
  | String c rest =>
      if Ascii.eqb c rparen then Some (EmptyString, rest)
      else match until_rparen rest with
           | Some (name, after) => Some (String c name, after)
           | None => None
           end
  end.

(** The pattern anchored at the start of [s]: the captured name and the
    text after the match. *)
Definition var_here (s : string) : option (string * string) :=
  match s with
  | String c1 (String c2 rest) =>
      if Ascii.eqb c1 dollar && Ascii.eqb c2 lparen then
        match until_rparen rest with
        | Some (String c name, after) => Some (String c name, after)
        | _ => None
        end
      else None
  | _ => None
  end.

(** [value.match(/\$\(([^\)]+)\)/)]: the leftmost match, as the text
    before it, the captured name ([match[1]]) and the text after it. *)
Fixpoint match_var (s : string) : option (string * string * string) :=
  match var_here s with
  | Some (name, after) => Some (EmptyString, name, after)
  | None =>
      match s with
      | EmptyString => None
      | String c rest =>
          match match_var rest with
          | Some (before, name, after) => Some (String c before, name, after)
          | None => None
          end
      end
  end.

(** [match[0]] for a captured name. *)
Definition whole_match (name : string) : string :=
  String dollar (String lparen (name ++ String rparen EmptyString)).

(** [StringIndexOf]: the text before and after the first occurrence of
    [pat] in [s]. *)
Fixpoint split_first (pat s : string) : option (string * string) :=
  if String.prefix pat s then Some (EmptyString, drop (String.length pat) s)
  else match s with
       | EmptyString => None
       | String c rest =>
           match split_first pat rest with
           | Some (before, after) => Some (String c before, after)
           | None => None
           end
       end.

(** [GetSubstitution] for a string pattern (no captures): in the
    replacement text [$$] stands for a dollar sign, [$&] for the matched
    text, [$`] for the text before the match and [$'] for the text after
    it; any other dollar sign is literal. *)
Fixpoint GetSubstitution (matched before after repl : string) : string :=
  match repl with
  | EmptyString => EmptyString
  | String c tail =>
      match tail with
      | String d tail' =>
          if Ascii.eqb c dollar then
            if Ascii.eqb d dollar then
              String dollar (GetSubstitution matched before after tail')
            else if Ascii.eqb d "&"%char then
              matched ++ GetSubstitution matched before after tail'
            else if Ascii.eqb d "`"%char then
              before ++ GetSubstitution matched before after tail'
            else if Ascii.eqb d "'"%char then
              after ++ GetSubstitution matched before after tail'
            else String c (GetSubstitution matched before after tail)
          else String c (GetSubstitution matched before after tail)
      | EmptyString => String c EmptyString
      end
  end.

(** [s.replace(pat, repl)] with a string pattern: only the first
    occurrence is replaced. *)
Definition replace (s pat repl : string) : string :=
  match split_first pat s with
  | None => s
  | Some (before, after) =>
      before ++ GetSubstitution pat before after repl ++ after
  end.

End JsString.

(** ** Results of a computation that may throw or never return *)

Inductive Result (A : Type) : Type :=
| Done (a : A)
| Threw (message : string)
| Hung.
Arguments Done {A} a.
Arguments Threw {A} message.
Arguments Hung {A}.

Definition quote : string := String (ascii_of_nat 34) EmptyString.

(** [`Variable "${varName}" is not defined`] *)
Definition undefined_variable (varName : string) : string :=
  "Variable " ++ quote ++ varName ++ quote ++ " is not defined".

(** ** [replaceVariables] *)

(** The [while (match !== null)] loop over a string value. *)
Fixpoint replace_loop (fuel : nat) (value : string) (resolved : Obj)
  : Result string :=
  match fuel with
  | O => Hung
  | S fuel' =>
      match JsString.match_var value with
      | None => Done value
      | Some (_, varName, _) =>
          match JsObject.get varName resolved with
          | Some v =>
              if truthy v then
                replace_loop fuel'
                  (JsString.replace value (JsString.whole_match varName)
                     (ToString v))
                  resolved
              else Threw (undefined_variable varName)
          | None => Threw (undefined_variable varName)
          end
      end
  end.

(** [replaceVariables(value, resolved)].  The first branch is taken by every
    value whose [typeof] is ["object"], [null] included: it copies the
    enumerable keys into a fresh object, so an array comes back as an object
    keyed by its indices and [null] as the empty object. *)
Fixpoint replaceVariables (fuel : nat) (value : Value) (resolved : Obj)
  {struct value} : Result Value :=
  match value with
  | VNull => Done (VMap [])
  | VMap fields =>
      (fix each (fs : list (string * Value)) (nestedObj : Obj) : Result Value :=
         match fs with
         | [] => Done (VMap nestedObj)
         | (key, v) :: fs' =>
             match replaceVariables fuel v resolved with
             | Done r => each fs' (JsObject.set key r nestedObj)
             | Threw m => Threw m
             | Hung => Hung
             end
         end) fields []
  | VSeq elems =>
      (fix each (i : nat) (es : list Value) (nestedObj : Obj) : Result Value :=
         match es with
         | [] => Done (VMap nestedObj)
         | v :: es' =>
             match replaceVariables fuel v resolved with
             | Done r => each (S i) es' (JsObject.set (string_of_nat i) r nestedObj)
             | Threw m => Threw m
             | Hung => Hung
             end
         end) O elems []
  | VStr s =>
      match replace_loop fuel s resolved with
      | Done s' => Done (VStr s')
      | Threw m => Threw m
      | Hung => Hung
      end
  | VBool _ | VNum _ => Done value
  end.

(** ** The emitter and the state of a run *)

Inductive Event : Type :=
| SetOutput (name : string) (value : Value)
| ExportVariable (name : string) (value : Value)
| Info (message : string)
| SetFailed (message : string).

(** [resolved] is the object of that name in [main]; [log] is what the
    emitter has received so far, oldest first. *)
Record State : Type := mkState { resolved : Obj; log : list Event }.

Definition emit (e : Event) (st : State) : State :=
  mkState (resolved st) (log st ++ [e]).

Definition write (key : string) (v : Value) (st : State) : State :=
  mkState (JsObject.set key v (resolved st)) (log st).

(** A statement: its result and the state it leaves, also when it throws. *)
Definition M (A : Type) : Type := State -> Result A * State.

Definition ret {A} (a : A) : M A := fun st => (Done a, st).

Definition bind {A B} (m : M A) (k : A -> M B) : M B :=
  fun st =>
    match m st with
    | (Done a, st') => k a st'
    | (Threw msg, st') => (Threw msg, st')
    | (Hung, st') => (Hung, st')
    end.

Notation "m ;; k" := (bind m (fun _ => k))
  (at level 61, right associativity).

Definition lift {A} (r : State -> Result A) : M A := fun st => (r st, st).

Definition modify (f : State -> State) : M unit := fun st => (Done tt, f st).

(** ** [resolveFields] *)

(** The body of the [for] loop of [resolveFields] for one [[key, value]]
    entry under [prefix]. *)
Fixpoint resolveField (fuel : nat) (prefix key : string) (value : Value)
  {struct value} : M unit :=
  match value with
  | VMap fields =>
      (fix each (fs : list (string * Value)) : M unit :=
         match fs with
         | [] => ret tt
         | (k, v) :: fs' =>
             resolveField fuel ((prefix ++ key) ++ ".") k v ;; each fs'
         end) fields
  | VSeq elems =>
      modify (emit (SetOutput ((prefix ++ key) ++ ".array") value)) ;;
      (fix each (i : nat) (es : list Value) : M unit :=
         match es with
         | [] => ret tt
         | v :: es' =>
             resolveField fuel ((prefix ++ key) ++ ".") (string_of_nat i) v ;;
             each (S i) es'
         end) O elems
  | VNull | VBool _ | VNum _ | VStr _ =>
      bind (lift (fun st => replaceVariables fuel value (resolved st)))
           (fun r => modify (write (prefix ++ key) r))
  end.

(** [resolveFields(obj, prefix)] over the entries of [obj]. *)
Fixpoint resolveFields (fuel : nat) (entries : Obj) (prefix : string)
  : M unit :=
  match entries with
  | [] => ret tt
  | (key, value) :: rest =>
      resolveField fuel prefix key value ;; resolveFields fuel rest prefix
  end.

(** The entries of an array: its elements under their decimal indices,
    counted from [i]. *)
Fixpoint indexed (i : nat) (elems : list Value) : Obj :=
  match elems with
  | [] => []
  | v :: rest => (string_of_nat i, v) :: indexed (S i) rest
  end.

(** The entries of a string: its characters under their indices. *)
Fixpoint chars (i : nat) (s : string) : Obj :=
  match s with
  | EmptyString => []
  | String c rest => (string_of_nat i, VStr (String c EmptyString)) :: chars (S i) rest
  end.

(** [Object.entries(v)] *)
Definition Object_entries (v : Value) : Result Obj :=
  match v with
  | VMap fields => Done fields
  | VSeq elems => Done (indexed O elems)
  | VStr s => Done (chars O s)
  | VBool _ | VNum _ => Done []
  | VNull => Threw "Cannot convert undefined or null to object"
  end.

(** ** Merging the documents *)

(** Modelled from the spec: the [deepmerge] package that [main] calls is a
    dependency whose code is not part of the sources.  Section 4.1: when both
    sides are mappings the result has the union of their keys, a key of both
    is merged recursively and a key of one side keeps that side's value; when
    either side is not a mapping, [b] wins outright. *)
Fixpoint deepMerge (a b : Value) {struct a} : Value :=
  match a, b with
  | VMap fa, VMap fb =>
      VMap
        ((fix each (fs : Obj) : Obj :=
            match fs with
            | [] => []
            | (k, va) :: fs' =>
                (k, match JsObject.get k fb with
                    | Some vb => deepMerge va vb
                    | None => va
                    end) :: each fs'
            end) fa
         ++ filter (fun kv => negb (JsObject.has (fst kv) fa)) fb)
  | _, _ => b
  end.

(** [let mergedConfig = {}; for (...) mergedConfig = deepmerge(mergedConfig, configYaml)] *)
Definition merge (trees : list Value) : Value :=
  fold_left deepMerge trees (VMap []).

(** ** Regular expressions with the [g] flag *)

(** A compiled pattern, by what its matcher does: [re s i] is the length of
    the match of the pattern in [s] that starts exactly at index [i]. *)
Definition Regex : Type := string -> nat -> option nat.

Module JsRegExp.

Fixpoint test_from (re : Regex) (whole : string) (p : nat) (rest : string)
  : bool :=
  match re whole p with
  | Some _ => true
  | None =>
      match rest with
      | EmptyString => false
      | String _ rest' => test_from re whole (S p) rest'
      end
  end.

(** [key.match(re)] is not [null]: the pattern matches somewhere. *)
Definition matches (re : Regex) (key : string) : bool :=
  test_from re key O key.

(** The scan of [key.replace(re, '')]: at index [p], with [skip] characters
    of the current match still to drop.  After a match the search resumes
    at its end, after an empty match one character further. *)
Fixpoint delete_from (re : Regex) (whole : string) (p : nat) (rest : string)
  (skip : nat) : string :=
  match rest with
  | EmptyString => EmptyString
  | String c rest' =>
      match skip with
      | S skip' => delete_from re whole (S p) rest' skip'
      | O =>
          match re whole p with
          | Some (S len') => delete_from re whole (S p) rest' len'
          | _ => String c (delete_from re whole (S p) rest' O)
          end
      end
  end.

(** [key.replace(re, '')] for a pattern with the [g] flag: every match is
    deleted. *)
Definition delete_matches (re : Regex) (key : string) : string :=
  delete_from re key O key O.

(** The matcher of a pattern without metacharacters. *)
Definition literal (pat : string) : Regex :=
  fun s i =>
    if String.prefix pat (JsString.drop i s) then Some (String.length pat)
    else None.

(** [k.replace(RegExp('[\.|\-]', "g"), "_")]: the class holds the dot, the
    bar and the hyphen. *)
Fixpoint env_name (k : string) : string :=
  match k with
  | EmptyString => EmptyString
  | String c rest =>
      String (if Ascii.eqb c "."%char || Ascii.eqb c "|"%char
                 || Ascii.eqb c "-"%char
              then "_"%char else c)
             (env_name rest)
  end.

End JsRegExp.

(** ** [main] *)

(** What reading and parsing one configuration file gives. *)
Inductive Source : Type :=
| Unreadable (message : string)
| Malformed (message : string)
| Parsed (tree : Value).

Definition throw {A} (message : string) : M A := fun st => (Threw message, st).

(** A non-empty string is truthy. *)
Definition given (s : string) : bool := negb (String.eqb s "").

Definition when (b : bool) (m : M unit) : M unit := if b then m else ret tt.

Definition nl : string := String (ascii_of_nat 10) EmptyString.

(** The loop over [configFiles]. *)
Fixpoint load_all (keyPathPattern : string) (files : list Source)
  (mergedConfig : Value) : M Value :=
  match files with
  | [] => ret mergedConfig
  | file :: rest =>
      match file with
      | Unreadable message => throw message
      | Malformed message =>
          when (given keyPathPattern)
            (modify (emit (Info (nl ++ nl ++ "key-path-pattern is :: "
                                   ++ keyPathPattern))) ;;
             modify (emit (Info (nl ++ nl)))) ;;
          throw message
      | Parsed configYaml =>
          when (given keyPathPattern)
            (modify (emit (Info (nl ++ nl ++ "key-path-pattern is :: "
                                   ++ keyPathPattern))) ;;
             modify (emit (Info (nl ++ nl)))) ;;
          load_all keyPathPattern rest (deepMerge mergedConfig configYaml)
      end
  end.

(** The export of one output as an environment variable. *)
Definition export (envVarPrefix k : string) (value : Value) : M unit :=
  when (given envVarPrefix)
    (modify (emit (Info (envVarPrefix ++ "_" ++ JsRegExp.env_name k ++ "="
                           ++ ToString value))) ;;
     modify (emit (ExportVariable (envVarPrefix ++ "_" ++ JsRegExp.env_name k)
                     value))).

(** The callback of [Object.entries(resolved).map]. *)
Definition emit_entry (reKPP : Regex) (keyPathPattern envVarPrefix : string)
  (val : string * Value) : M unit :=
  let key := fst val in
  let value := snd val in
  if given keyPathPattern then
    if JsRegExp.matches reKPP key then
      let k := JsRegExp.delete_matches reKPP key in
      modify (emit (Info (k ++ " : " ++ ToString value))) ;;
      modify (emit (SetOutput k value)) ;;
      export envVarPrefix k value
    else ret tt
  else
    modify (emit (Info (key ++ " : " ++ ToString value))) ;;
    modify (emit (SetOutput key value)) ;;
    export envVarPrefix key value.

Fixpoint emit_entries (reKPP : Regex) (keyPathPattern envVarPrefix : string)
  (entries : Obj) : M unit :=
  match entries with
  | [] => ret tt
  | val :: rest =>
      emit_entry reKPP keyPathPattern envVarPrefix val ;;
      emit_entries reKPP keyPathPattern envVarPrefix rest
  end.

(** The body of the [try] block.  [RegExp pattern] is the compiled pattern or
    the message of the syntax error it raises. *)
Definition main_try (fuel : nat) (RegExp : string -> string + Regex)
  (files : list Source) (keyPathPattern envVarPrefix : string) : M unit :=
  bind (load_all keyPathPattern files (VMap [])) (fun mergedConfig =>
  bind (lift (fun _ => Object_entries mergedConfig)) (fun entries =>
  resolveFields fuel entries "" ;;
  match RegExp keyPathPattern with
  | inl message => throw message
  | inr reKPP =>
      fun st => emit_entries reKPP keyPathPattern envVarPrefix (resolved st) st
  end)).

(** How a run ends, with everything the emitter received. *)
Inductive Run : Type :=
| Finished (events : list Event)
| NeverReturns (events : list Event).

Definition events_of (r : Run) : list Event :=
  match r with Finished es | NeverReturns es => es end.

(** [main()]: the [try] block and its [catch]. *)
Definition main (fuel : nat) (RegExp : string -> string + Regex)
  (files : list Source) (keyPathPattern envVarPrefix : string) : Run :=
  match main_try fuel RegExp files keyPathPattern envVarPrefix (mkState [] []) with
  | (Done _, st) => Finished (log st)
  | (Threw message, st) => Finished (log st ++ [SetFailed message])
  | (Hung, st) => NeverReturns (log st)
  end.

(** The [(name, value)] pairs passed to [core.setOutput]. *)
Fixpoint outputs (events : list Event) : list (string * Value) :=
  match events with
  | [] => []
  | SetOutput name value :: rest => (name, value) :: outputs rest
  | _ :: rest => outputs rest
  end.

(** The single-document siblings call [resolveFields] on the parsed file
    with an empty [resolved]. *)
Definition flatten (fuel : nat) (tree : Obj) : Result unit * State :=
  resolveFields fuel tree "" (mkState [] []).

(** ** Induction on document trees *)

Section ValueInduction.

Variable P : Value -> Prop.
Hypothesis P_null : P VNull.
Hypothesis P_bool : forall b, P (VBool b).
Hypothesis P_num : forall z, P (VNum z).
Hypothesis P_str : forall s, P (VStr s).
Hypothesis P_seq : forall elems, Forall P elems -> P (VSeq elems).
Hypothesis P_map :
  forall fields, Forall (fun kv => P (snd kv)) fields -> P (VMap fields).

Fixpoint Value_nested_ind (v : Value) : P v :=
  match v with
  | VNull => P_null
  | VBool b => P_bool b
  | VNum z => P_num z
  | VStr s => P_str s
  | VSeq elems =>
      P_seq elems
        ((fix all (l : list Value) : Forall P l :=
            match l with
            | [] => Forall_nil _
            | x :: l' => Forall_cons x (Value_nested_ind x) (all l')
            end) elems)
  | VMap fields =>
      P_map fields
        ((fix all (l : list (string * Value))
            : Forall (fun kv => P (snd kv)) l :=
            match l with
            | [] => Forall_nil _
            | kv :: l' =>
                Forall_cons kv (Value_nested_ind (snd kv)) (all l')
            end) fields)
  end.

End ValueInduction.

(** ** Notions used in the statements *)

Definition is_leaf (v : Value) : bool :=
  match v with
  | VSeq _ | VMap _ => false
  | _ => true
  end.

(** An output of the whole-array side channel. *)
Definition array_mark (e : Event) : Prop :=
  exists p elems, e = SetOutput (p ++ ".array") (VSeq elems).

(** [st'] comes after [st]: the emitter has only received more array marks,
    and no key of [resolved] has been removed. *)
Definition extends (st st' : State) : Prop :=
  (exists evs, log st' = (log st ++ evs)%list /\ Forall array_mark evs)
  /\ forall k, JsObject.has k (resolved st) = true ->
               JsObject.has k (resolved st') = true.

(** [Reached entries prefix p v]: [resolveFields(entries, prefix)] visits the
    value [v] under the key-path [p]. *)
Inductive Reached : Obj -> string -> string -> Value -> Prop :=
| Reached_here entries prefix key v :
    In (key, v) entries -> Reached entries prefix (prefix ++ key) v
| Reached_in_map entries prefix key fields p v :
    In (key, VMap fields) entries ->
    Reached fields ((prefix ++ key) ++ ".") p v ->
    Reached entries prefix p v
| Reached_in_seq entries prefix key elems p v :
    In (key, VSeq elems) entries ->
    Reached (indexed O elems) ((prefix ++ key) ++ ".") p v ->
    Reached entries prefix p v.

Definition nested_seq_doc : Obj :=
  [("a", VMap [("b", VSeq [VMap [("c", VNum 1)]; VMap [("c", VNum 2)]])])].

Definition referring_seq_doc : Obj :=
  [("x", VStr "v"); ("arr", VSeq [VStr "$(x)"])].

Definition resource_group_doc : Obj :=
  [("namespace", VStr "ns"); ("location", VStr "loc");
   ("environment", VStr "dev");
   ("resource_group_name", VStr "$(namespace)-$(location)-$(environment)")].

Definition merged_fields (fa fb : Obj) : Obj :=
  (map (fun kv => (fst kv,
                   match JsObject.get (fst kv) fb with
                   | Some vb => deepMerge (snd kv) vb
                   | None => snd kv
                   end)) fa
   ++ filter (fun kv => negb (JsObject.has (fst kv) fa)) fb)%list.

(** A path into a document tree: mapping keys and sequence indices. *)
Inductive Seg : Type :=
| Key (k : string)
| Index (i : nat).

Fixpoint at_path (path : list Seg) (v : Value) : option Value :=
  match path with
  | [] => Some v
  | Key k :: rest =>
      match v with
      | VMap fields =>
          match JsObject.get k fields with
          | Some w => at_path rest w
          | None => None
          end
      | _ => None
      end
  | Index i :: rest =>
      match v with
      | VSeq elems =>
          match nth_error elems i with
          | Some w => at_path rest w
          | None => None
          end
      | _ => None
      end
  end.

(** The outputs one entry of [resolved] gives rise to. *)
Definition entry_outputs (reKPP : Regex) (keyPathPattern : string)
  (val : string * Value) : list (string * Value) :=
  if given keyPathPattern then
    if JsRegExp.matches reKPP (fst val)
    then [(JsRegExp.delete_matches reKPP (fst val), snd val)]
    else []
  else [val].

(** The reading of section 4.3: the key with only its first match deleted. *)
Fixpoint delete_first_from (re : Regex) (whole : string) (p : nat)
  (rest : string) : string :=
  match re whole p with
  | Some len => JsString.drop len rest
  | None =>
      match rest with
      | EmptyString => EmptyString
      | String c rest' => String c (delete_first_from re whole (S p) rest')
      end
  end.

Definition delete_first_match (re : Regex) (key : string) : string :=
  delete_first_from re key O key.

(** A message for the log. *)
Definition notice (e : Event) : Prop := exists message, e = Info message.

Definition side_channel (e : Event) : Prop := notice e \/ array_mark e.

Definition failing_after_array : list Source :=
  [Parsed (VMap [("arr", VSeq [VStr "1"]); ("x", VStr "$(y)")])].

(** The number of dollar signs in a string. *)
Fixpoint count_dollar (s : string) : nat :=
  match s with
  | EmptyString => O
  | String c rest =>
      (if Ascii.eqb c JsString.dollar then 1 else 0) + count_dollar rest
  end.

Fixpoint no_rparen (s : string) : bool :=
  match s with
  | EmptyString => true
  | String c rest => negb (Ascii.eqb c JsString.rparen) && no_rparen rest
  end.

(** No value that a reference can be replaced by holds a dollar sign. *)
Definition plain_values (resolved : Obj) : Prop :=
  forall k v,
    JsObject.get k resolved = Some v -> truthy v = true ->
    count_dollar (ToString v) = 0.

(** ** Notions used in the further properties *)

(** No string of the object holds a reference. *)
Definition reference_free_map (o : Obj) : Prop :=
  forall k s, JsObject.get k o = Some (VStr s) -> JsString.match_var s = None.

(** What [replaceVariables] can return for a leaf: a string, a number, a
    boolean or the empty object. *)
Definition leaf_result (v : Value) : bool :=
  match v with
  | VStr _ | VNum _ | VBool _ | VMap [] => true
  | _ => false
  end.

Definition leaf_results (o : Obj) : Prop :=
  forall k v, JsObject.get k o = Some v -> leaf_result v = true.

(** The array mark of a sequence that the traversal of [entries] visits. *)
Definition mark_of (entries : Obj) (prefix : string) (e : Event) : Prop :=
  exists p elems,
    e = SetOutput (p ++ ".array") (VSeq elems)
    /\ Reached entries prefix p (VSeq elems).

(** From [st] to [st'] every new key of [resolved] is the path of a leaf
    that the traversal of [entries] visits, and every new event is the mark
    of a sequence it visits. *)
Definition accounted (entries : Obj) (prefix : string) (st st' : State)
  : Prop :=
  (forall k, JsObject.has k (resolved st') = true ->
             JsObject.has k (resolved st) = true
             \/ exists v, Reached entries prefix k v /\ is_leaf v = true)
  /\ exists evs,
       log st' = (log st ++ evs)%list /\ Forall (mark_of entries prefix) evs.




(** The [(name, value)] pairs passed to [core.exportVariable]. *)
Fixpoint exports (events : list Event) : list (string * Value) :=
  match events with
  | [] => []
  | ExportVariable name value :: rest => (name, value) :: exports rest
  | _ :: rest => exports rest
  end.

(** [`${envVarPrefix}_${k}`] with [k] made fit for a variable name. *)
Definition env_key (envVarPrefix k : string) : string :=
  envVarPrefix ++ "_" ++ JsRegExp.env_name k.

(** The message a file that cannot be loaded fails with. *)
Definition load_failure (file : Source) : option string :=
  match file with
  | Unreadable message | Malformed message => Some message
  | Parsed _ => None
  end.

(** ** The list of configuration files *)

Module ConfigFiles.

(** The class [[\r\n]]. *)
Definition is_line_break (c : ascii) : bool :=
  Nat.eqb (nat_of_ascii c) 10 || Nat.eqb (nat_of_ascii c) 13.

(** The white space that [trim] removes, among the code units below 256:
    tab, line feed, vertical tab, form feed, carriage return, space and the
    no-break space. *)
Definition is_space (c : ascii) : bool :=
  match nat_of_ascii c with
  | 9 | 10 | 11 | 12 | 13 | 32 | 160 => true
  | _ => false
  end.

(** [input.split(/[\r\n]/)] *)
Fixpoint split_lines (s : string) : list string :=
  match s with
  | EmptyString => [EmptyString]
  | String c rest =>
      if is_line_break c then EmptyString :: split_lines rest
      else match split_lines rest with
           | line :: lines => String c line :: lines
           | [] => [String c EmptyString]
           end
  end.

Fixpoint trim_start (s : string) : string :=
  match s with
  | EmptyString => EmptyString
  | String c rest => if is_space c then trim_start rest else s
  end.

Fixpoint trim_end (s : string) : string :=
  match s with
  | EmptyString => EmptyString
  | String c rest =>
      match trim_end rest with
      | EmptyString => if is_space c then EmptyString else String c EmptyString
      | kept => String c kept
      end
  end.

(** [input.trim()] *)
Definition trim (s : string) : string := trim_end (trim_start s).

(** [core.getInput("config-files").split(/[\r\n]/).map(input => input.trim())
    .filter(input => input !== '')] *)
Definition config_files (input : string) : list string :=
  filter (fun line => negb (String.eqb line "")) (map trim (split_lines input)).

Fixpoint last_char (s : string) : option ascii :=
  match s with
  | EmptyString => None
  | String c EmptyString => Some c
  | String _ rest => last_char rest
  end.

Fixpoint all_chars (f : ascii -> bool) (s : string) : bool :=
  match s with
  | EmptyString => true
  | String c rest => f c && all_chars f rest
  end.

(** A path as [main] reads it: not empty, on one line, with no white space
    at either end. *)
Definition clean_path (p : string) : bool :=
  negb (String.eqb p "")
  && match p with String c _ => negb (is_space c) | EmptyString => true end
  && match last_char p with Some c => negb (is_space c) | None => true end
  && all_chars (fun c => negb (is_line_break c)) p.

End ConfigFiles.

(** ** The first version of the action: [src/action_read_yaml/index.js] *)

Section FlatVersion.

(** The message of the [TypeError] that the engine raises for
    [value.match(...)] when [value] is not a string. *)
Variable type_error : Value -> string.

(** [replaceVariables(value, resolved)] of the first version: the loop
    alone, with no test of the type of [value]. *)
Definition replaceVariables_flat (fuel : nat) (value : Value) (resolved : Obj)
  : Result Value :=
  match value with
  | VStr s =>
      match replace_loop fuel s resolved with
      | Done s' => Done (VStr s')
      | Threw m => Threw m
      | Hung => Hung
      end
  | _ => Threw (type_error value)
  end.

(** [for (const key in configYaml) resolved[key] =
    replaceVariables(configYaml[key], resolved)] *)
Fixpoint resolve_keys_flat (fuel : nat) (entries : Obj) (resolved : Obj)
  : Result Obj :=
  match entries with
  | [] => Done resolved
  | (key, value) :: rest =>
      match replaceVariables_flat fuel value resolved with
      | Done r => resolve_keys_flat fuel rest (JsObject.set key r resolved)
      | Threw m => Threw m
      | Hung => Hung
      end
  end.

End FlatVersion.

(** What a traversal gives as a result of this kind. *)
Definition resolved_of (run : Result unit * State) : Result Obj :=
  match run with
  | (Done _, st) => Done (resolved st)
  | (Threw m, _) => Threw m
  | (Hung, _) => Hung
  end.

(** ** Where the embedding follows the engine *)

(** The members that every plain object inherits from [Object.prototype]:
    [resolved[name]] finds them when [resolved] has no property of its own
    under the name, which [JsObject.get] does not show; [__proto__] is read
    and written through an accessor and never becomes a property of its own. *)
Definition inherited_names : list string :=
  ["constructor"; "__defineGetter__"; "__defineSetter__"; "hasOwnProperty";
   "__lookupGetter__"; "__lookupSetter__"; "isPrototypeOf";
   "propertyIsEnumerable"; "toString"; "valueOf"; "__proto__";
   "toLocaleString"].

Definition inherited_name (name : string) : bool :=
  existsb (String.eqb name) inherited_names.

(** The numbers that print as their decimal digits: the integers of
    magnitude below 2^53; [ToString] is the engine's conversion on values
    that hold no other number. *)
Fixpoint safe_numbers (v : Value) : bool :=
  match v with
  | VNum z => Z.ltb (Z.abs z) (2 ^ 53)
  | VSeq elems => forallb safe_numbers elems
  | VMap fields => forallb (fun kv => safe_numbers (snd kv)) fields
  | VNull | VBool _ | VStr _ => true
  end.

Definition is_digit (c : ascii) : bool :=
  Nat.leb 48 (nat_of_ascii c) && Nat.leb (nat_of_ascii c) 57.

Fixpoint decimal (s : string) (acc : N) : option N :=
  match s with
  | EmptyString => Some acc
  | String c rest =>
      if is_digit c
      then decimal rest (acc * 10 + N.of_nat (nat_of_ascii c - 48))%N
      else None
  end.

(** An array index: the canonical decimal form of an integer below
    2^32 - 1.  [Object.entries] lists the keys of this form first, in
    ascending order, which the association list does not show. *)
Definition array_index (k : string) : bool :=
  match k with
  | EmptyString => false
  | String c rest =>
      if Ascii.eqb c "0" && negb (String.eqb rest "") then false
      else match decimal k 0 with
           | Some n => N.ltb n (2 ^ 32 - 1)
           | None => false
           end
  end.

(** A key that [resolved[key] = v] adds as the last property. *)
Definition ordinary_key (k : string) : bool :=
  negb (array_index k) && negb (String.eqb k "__proto__").

(** A string far below the engine's limit on the length of strings. *)
Definition short_string (s : string) : bool :=
  N.leb (N.of_nat (String.length s)) (2 ^ 24).



(** The names that the loop looks up in [resolved], in order. *)
Fixpoint looked_up (fuel : nat) (value : string) (resolved : Obj)
  : list string :=
  match fuel with
  | O => []
  | S fuel' =>
      match JsString.match_var value with
      | None => []
      | Some (_, varName, _) =>
          varName ::
          match JsObject.get varName resolved with
          | Some v =>
              if truthy v then
                looked_up fuel'
                  (JsString.replace value (JsString.whole_match varName)
                     (ToString v))
                  resolved
              else []
          | None => []
          end
      end
  end.

(** * Properties *)

(** ** The equations of [resolveField] *)

Lemma resolveField_map fuel prefix key fields :
  resolveField fuel prefix key (VMap fields)
  = resolveFields fuel fields ((prefix ++ key) ++ ".").
Proof.
  simpl. induction fields as [|[k v] fs IH]; simpl.
  - reflexivity.
  - rewrite IH. reflexivity.
Qed.

Lemma resolveField_seq_from fuel prefix elems : forall i,
  (fix each (i : nat) (es : list Value) : M unit :=
     match es with
     | [] => ret tt
     | v :: es' =>
         resolveField fuel prefix (string_of_nat i) v ;; each (S i) es'
     end) i elems
  = resolveFields fuel (indexed i elems) prefix.
Proof.
  induction elems as [|v es IH]; intro i; simpl.
  - reflexivity.
  - rewrite IH. reflexivity.
Qed.

Lemma resolveField_seq fuel prefix key elems :
  resolveField fuel prefix key (VSeq elems)
  = (modify (emit (SetOutput ((prefix ++ key) ++ ".array") (VSeq elems))) ;;
     resolveFields fuel (indexed O elems) ((prefix ++ key) ++ ".")).
Proof.
  simpl. rewrite resolveField_seq_from. reflexivity.
Qed.

Lemma resolveField_leaf fuel prefix key v st :
  is_leaf v = true ->
  resolveField fuel prefix key v st
  = match replaceVariables fuel v (resolved st) with
    | Done r => (Done tt, write (prefix ++ key) r st)
    | Threw m => (Threw m, st)
    | Hung => (Hung, st)
    end.
Proof.
  destruct v; simpl; try discriminate; intros _;
    unfold bind, lift, modify;
    match goal with
    | |- context [match ?r with Done _ => _ | Threw _ => _ | Hung => _ end] =>
        destruct r; reflexivity
    | _ => reflexivity
    end.
Qed.

Lemma resolveFields_app fuel l1 l2 prefix st :
  resolveFields fuel (l1 ++ l2)%list prefix st
  = (resolveFields fuel l1 prefix ;; resolveFields fuel l2 prefix) st.
Proof.
  revert st. induction l1 as [|[k v] l1 IH]; intro st; simpl.
  - reflexivity.
  - unfold bind in *.
    destruct (resolveField fuel prefix k v st) as [[[]| |] st']; try reflexivity.
    apply IH.
Qed.

Lemma bind_done {A B} (m : M A) (k : A -> M B) st b st' :
  bind m k st = (Done b, st') ->
  exists a st1, m st = (Done a, st1) /\ k a st1 = (Done b, st').
Proof.
  unfold bind. destruct (m st) as [[a| |] st1]; intro H; try discriminate.
  exists a, st1. split; [reflexivity | exact H].
Qed.

(** ** What a traversal leaves behind *)

Lemma extends_refl st : extends st st.
Proof.
  split; [exists []; split; [symmetry; apply app_nil_r | constructor] | auto].
Qed.

Lemma extends_trans st1 st2 st3 :
  extends st1 st2 -> extends st2 st3 -> extends st1 st3.
Proof.
  intros [[e1 [L1 F1]] K1] [[e2 [L2 F2]] K2]. split.
  - exists (e1 ++ e2)%list. split.
    + rewrite L2, L1, app_assoc. reflexivity.
    + apply Forall_app. split; assumption.
  - auto.
Qed.

Lemma has_set_same key v o : JsObject.has key (JsObject.set key v o) = true.
Proof.
  unfold JsObject.has.
  induction o as [|[k w] o IH]; simpl.
  - rewrite String.eqb_refl. reflexivity.
  - destruct (String.eqb k key) eqn:E; simpl; rewrite E; auto.
Qed.

Lemma get_set_same key v o :
  JsObject.get key (JsObject.set key v o) = Some v.
Proof.
  induction o as [|[k w] o IH]; simpl.
  - rewrite String.eqb_refl. reflexivity.
  - destruct (String.eqb k key) eqn:E; simpl; rewrite E; auto.
Qed.

Lemma get_set_other key k v o :
  k <> key -> JsObject.get k (JsObject.set key v o) = JsObject.get k o.
Proof.
  intro N. induction o as [|[k' w] o IH]; simpl.
  - destruct (String.eqb key k) eqn:E; [|reflexivity].
    apply String.eqb_eq in E. congruence.
  - destruct (String.eqb k' key) eqn:E; simpl.
    + apply String.eqb_eq in E. subst k'.
      destruct (String.eqb key k) eqn:E'; [|reflexivity].
      apply String.eqb_eq in E'. congruence.
    + rewrite IH. reflexivity.
Qed.

Lemma has_set_mono key v k o :
  JsObject.has k o = true -> JsObject.has k (JsObject.set key v o) = true.
Proof.
  destruct (String.eqb_spec k key) as [->|N].
  - intros _. apply has_set_same.
  - unfold JsObject.has. rewrite get_set_other by assumption. auto.
Qed.

Lemma extends_write key v st : extends st (write key v st).
Proof.
  split.
  - exists []. split; [symmetry; apply app_nil_r | constructor].
  - intros k. apply has_set_mono.
Qed.

Lemma extends_emit_mark p elems st :
  extends st (emit (SetOutput (p ++ ".array") (VSeq elems)) st).
Proof.
  split.
  - eexists. split; [reflexivity|]. repeat constructor. exists p, elems. reflexivity.
  - auto.
Qed.

Lemma resolveFields_extends fuel entries :
  Forall (fun kv => forall prefix key st r st',
              resolveField fuel prefix key (snd kv) st = (r, st') ->
              extends st st') entries ->
  forall prefix st r st',
    resolveFields fuel entries prefix st = (r, st') -> extends st st'.
Proof.
  induction 1 as [|[k v] es Hv _ IH]; intros prefix st r st'; simpl.
  - unfold ret. intro E. inversion E. apply extends_refl.
  - unfold bind. destruct (resolveField fuel prefix k v st) as [r1 st1] eqn:E1.
    apply Hv in E1. simpl in *.
    destruct r1; intro E; try (inversion E; subst; exact E1).
    eapply extends_trans; [exact E1 | eapply IH; exact E].
Qed.

Lemma Forall_indexed (P : Value -> Prop) elems :
  Forall P elems -> forall i, Forall (fun kv => P (snd kv)) (indexed i elems).
Proof.
  induction 1; intro i; simpl; constructor; auto.
Qed.

Lemma resolveField_extends fuel v : forall prefix key st r st',
  resolveField fuel prefix key v st = (r, st') -> extends st st'.
Proof.
  induction v as [ | b | z | s | elems IH | fields IH ] using Value_nested_ind;
    intros prefix key st r st'.
  1-4: rewrite resolveField_leaf by reflexivity;
       destruct (replaceVariables fuel _ (resolved st));
       intro E; inversion E; subst;
       try apply extends_refl; apply extends_write.
  - rewrite resolveField_seq. unfold bind, modify. intro E.
    eapply extends_trans; [apply extends_emit_mark|].
    eapply resolveFields_extends; [|exact E].
    apply Forall_indexed with (P := fun v => forall prefix key st r st',
      resolveField fuel prefix key v st = (r, st') -> extends st st').
    exact IH.
  - rewrite resolveField_map. apply resolveFields_extends. exact IH.
Qed.

Lemma resolveFields_extends_all fuel entries prefix st r st' :
  resolveFields fuel entries prefix st = (r, st') -> extends st st'.
Proof.
  apply resolveFields_extends.
  apply Forall_forall. intros kv _ p k. apply resolveField_extends.
Qed.

(** ** Paths visited by a traversal *)

Lemma indexed_In elems : forall i j e,
  nth_error elems i = Some e -> In (string_of_nat (j + i), e) (indexed j elems).
Proof.
  induction elems as [|x es IH]; intros [|i] j e E; simpl in *; try discriminate.
  - inversion E; subst. left. rewrite Nat.add_0_r. reflexivity.
  - right. replace (j + S i) with (S j + i) by lia. apply IH. exact E.
Qed.

Lemma Reached_element entries prefix p elems i e :
  Reached entries prefix p (VSeq elems) ->
  nth_error elems i = Some e ->
  Reached entries prefix ((p ++ ".") ++ string_of_nat i) e.
Proof.
  intros R E. remember (VSeq elems) as s eqn:Es.
  induction R as [entries prefix key v I | entries prefix key fields p v I R IH
                  | entries prefix key els p v I R IH]; subst.
  - eapply Reached_in_seq; [exact I|].
    apply Reached_here. apply (indexed_In elems i O e E).
  - eapply Reached_in_map; [exact I | apply IH; reflexivity].
  - eapply Reached_in_seq; [exact I | apply IH; reflexivity].
Qed.

(** A completed traversal, cut at one of its entries. *)
Lemma resolveFields_at fuel entries key v prefix st st' :
  In (key, v) entries ->
  resolveFields fuel entries prefix st = (Done tt, st') ->
  exists st1 st2,
    extends st st1 /\ resolveField fuel prefix key v st1 = (Done tt, st2)
    /\ extends st2 st'.
Proof.
  intros I E. apply in_split in I. destruct I as [l1 [l2 ->]].
  rewrite resolveFields_app in E.
  apply bind_done in E. destruct E as [[] [st1 [E1 E2]]].
  simpl in E2. apply bind_done in E2. destruct E2 as [[] [st2 [E2 E3]]].
  exists st1, st2. repeat split.
  - eapply resolveFields_extends_all; exact E1.
  - eapply resolveFields_extends_all; exact E1.
  - exact E2.
  - eapply resolveFields_extends_all; exact E3.
  - eapply resolveFields_extends_all; exact E3.
Qed.

Lemma extends_log st st' e : extends st st' -> In e (log st) -> In e (log st').
Proof.
  intros [[evs [L _]] _] I. rewrite L. apply in_or_app. left. exact I.
Qed.

(** Every sequence a completed traversal visits has had its raw value sent
    to the emitter under the path with [.array] appended. *)
Lemma reached_seq_marked entries prefix p v :
  Reached entries prefix p v ->
  forall elems fuel st st',
    v = VSeq elems ->
    resolveFields fuel entries prefix st = (Done tt, st') ->
    In (SetOutput (p ++ ".array") (VSeq elems)) (log st').
Proof.
  induction 1 as [entries prefix key v I | entries prefix key fields p v I R IH
                  | entries prefix key els p v I R IH];
    intros elems fuel st st' -> E;
    destruct (resolveFields_at _ _ _ _ _ _ _ I E) as [st1 [st2 [X1 [E2 X2]]]];
    apply (extends_log _ _ _ X2).
  - rewrite resolveField_seq in E2. apply bind_done in E2.
    destruct E2 as [[] [st3 [E3 E4]]]. unfold modify in E3. inversion E3; subst.
    apply resolveFields_extends_all in E4.
    apply (extends_log _ _ _ E4). simpl. apply in_or_app. right. left. reflexivity.
  - rewrite resolveField_map in E2. eapply IH; [reflexivity | exact E2].
  - rewrite resolveField_seq in E2. apply bind_done in E2.
    destruct E2 as [[] [st3 [E3 E4]]]. eapply IH; [reflexivity | exact E4].
Qed.

(** Every leaf a completed traversal visits has its key-path in [resolved]. *)
Lemma reached_leaf_written entries prefix p v :
  Reached entries prefix p v ->
  forall fuel st st',
    is_leaf v = true ->
    resolveFields fuel entries prefix st = (Done tt, st') ->
    JsObject.has p (resolved st') = true.
Proof.
  induction 1 as [entries prefix key v I | entries prefix key fields p v I R IH
                  | entries prefix key els p v I R IH];
    intros fuel st st' L E;
    destruct (resolveFields_at _ _ _ _ _ _ _ I E) as [st1 [st2 [X1 [E2 X2]]]];
    apply (proj2 X2).
  - rewrite resolveField_leaf in E2 by exact L.
    destruct (replaceVariables fuel v (resolved st1)); inversion E2; subst.
    apply has_set_same.
  - rewrite resolveField_map in E2. eapply IH; [exact L | exact E2].
  - rewrite resolveField_seq in E2. apply bind_done in E2.
    destruct E2 as [[] [st3 [E3 E4]]]. eapply IH; [exact L | exact E4].
Qed.

Lemma outputs_In name value events :
  In (SetOutput name value) events -> In (name, value) (outputs events).
Proof.
  induction events as [|e es IH]; simpl; [tauto|].
  intros [->|I]; [left; reflexivity|].
  destruct e; simpl; auto.
Qed.

Lemma Reached_below_seq entries prefix p w :
  Reached entries prefix p w ->
  forall elems q v,
    w = VSeq elems ->
    Reached (indexed O elems) (p ++ ".") q v ->
    Reached entries prefix q v.
Proof.
  induction 1 as [entries prefix key w I | entries prefix key fields p w I R IH
                  | entries prefix key els p w I R IH];
    intros elems q v -> B.
  - eapply Reached_in_seq; [exact I | exact B].
  - eapply Reached_in_map; [exact I | eapply IH; [reflexivity | exact B]].
  - eapply Reached_in_seq; [exact I | eapply IH; [reflexivity | exact B]].
Qed.

(** ** Sequences: the per-element entries and the whole-array output *)

(** C6, as stated, fails on the scenario: after flattening
    [{a: {b: [{c: 1}, {c: 2}]}}] the Resolved Map has no key [a.b.array]. *)
Lemma resolved_map_lacks_array_key :
  fst (flatten 1 nested_seq_doc) = Done tt
  /\ JsObject.get "a.b.array" (resolved (snd (flatten 1 nested_seq_doc)))
     <> Some (VSeq [VMap [("c", VNum 1)]; VMap [("c", VNum 2)]]).
Proof.
  split; [reflexivity | vm_compute; discriminate].
Qed.

(** C6 (amended): for every sequence reached at path [p] by a completed
    flattening, the whole array is passed to the emitter as the output
    [p.array], and every leaf below it has its entry in the Resolved Map,
    the leaf elements under [p.0], [p.1], ...; for [{a: {b: [{c: 1}, {c: 2}]}}]
    the output [a.b.array] is [[{c:1},{c:2}]] and the Resolved Map is
    [a.b.0.c = 1], [a.b.1.c = 2]. *)
Theorem seq_entries_and_array_output :
  (forall fuel tree st p elems,
      flatten fuel tree = (Done tt, st) ->
      Reached tree "" p (VSeq elems) ->
      In (p ++ ".array", VSeq elems) (outputs (log st))
      /\ (forall i e, nth_error elems i = Some e -> is_leaf e = true ->
            JsObject.has ((p ++ ".") ++ string_of_nat i) (resolved st) = true)
      /\ (forall q v, Reached (indexed O elems) (p ++ ".") q v ->
            is_leaf v = true -> JsObject.has q (resolved st) = true))
  /\ (forall fuel,
        flatten fuel nested_seq_doc
        = (Done tt,
           mkState [("a.b.0.c", VNum 1); ("a.b.1.c", VNum 2)]
             [SetOutput "a.b.array"
                (VSeq [VMap [("c", VNum 1)]; VMap [("c", VNum 2)]])])).
Proof.
  split.
  - intros fuel tree st p elems E R. unfold flatten in E. repeat split.
    + apply outputs_In. eapply reached_seq_marked; [exact R | reflexivity | exact E].
    + intros i e N L.
      eapply reached_leaf_written; [|exact L | exact E].
      eapply Reached_element; [exact R | exact N].
    + intros q v B L.
      eapply reached_leaf_written; [|exact L | exact E].
      eapply Reached_below_seq; [exact R | reflexivity | exact B].
  - intros fuel. destruct fuel; reflexivity.
Qed.

Lemma seq_entries_and_array_output_witness :
  In ("a.b.array", VSeq [VMap [("c", VNum 1)]; VMap [("c", VNum 2)]])
     (outputs (log (snd (flatten 1 nested_seq_doc)))).
Proof.
  apply (proj1 seq_entries_and_array_output 1 nested_seq_doc
           (snd (flatten 1 nested_seq_doc)) "a.b"
           [VMap [("c", VNum 1)]; VMap [("c", VNum 2)]]).
  - reflexivity.
  - apply (Reached_in_map nested_seq_doc "" "a"
             [("b", VSeq [VMap [("c", VNum 1)]; VMap [("c", VNum 2)]])]
             "a.b" _).
    + left. reflexivity.
    + apply (Reached_here _ "a." "b" _). left. reflexivity.
Defined.



(** ** Scalars that are not strings *)

(** Numbers and booleans are written to [resolved] as they are. *)
Lemma number_or_boolean_written_unchanged fuel prefix key v st :
  typeof_object v = false -> typeof_string v = false ->
  resolveField fuel prefix key v st = (Done tt, write (prefix ++ key) v st).
Proof.
  destruct v; simpl; try discriminate; reflexivity.
Qed.

(** C7 fails for [null]: [replaceVariables] tests [typeof value === "object"]
    without the [value !== null] guard that [resolveFields] has, so the leaf
    [null] of [{a: null}] is written to [resolved] as the empty object. *)
Theorem null_leaf_becomes_empty_object :
  forall fuel,
    replaceVariables fuel VNull [] = Done (VMap [])
    /\ flatten fuel [("a", VNull)] = (Done tt, mkState [("a", VMap [])] []).
Proof.
  intro fuel. split; reflexivity.
Qed.

(** ** The scan and the replacement, character by character *)

Lemma append_assoc (a b c : string) : (a ++ b) ++ c = a ++ b ++ c.
Proof.
  induction a as [|x a IH]; simpl; [reflexivity | rewrite IH; reflexivity].
Qed.

Lemma until_rparen_shape s : forall name after,
  JsString.until_rparen s = Some (name, after) ->
  s = name ++ String JsString.rparen after /\ no_rparen name = true.
Proof.
  induction s as [|c s IH]; intros name after; simpl; [discriminate|].
  destruct (Ascii.eqb_spec c JsString.rparen) as [->|N].
  - intro E. inversion E; subst. split; reflexivity.
  - destruct (JsString.until_rparen s) as [[n a]|]; [|discriminate].
    intro E. inversion E; subst. destruct (IH n after eq_refl) as [-> P].
    split; [reflexivity|]. simpl.
    destruct (Ascii.eqb_spec c JsString.rparen); [contradiction | exact P].
Qed.

Lemma until_rparen_complete name : forall after,
  no_rparen name = true ->
  JsString.until_rparen (name ++ String JsString.rparen after)
  = Some (name, after).
Proof.
  induction name as [|c name IH]; intros after; simpl.
  - reflexivity.
  - destruct (Ascii.eqb c JsString.rparen); simpl; [discriminate|].
    intro P. rewrite IH by exact P. reflexivity.
Qed.

Lemma whole_match_append name after :
  JsString.whole_match name ++ after
  = String JsString.dollar
      (String JsString.lparen (name ++ String JsString.rparen after)).
Proof.
  unfold JsString.whole_match. simpl. rewrite append_assoc. reflexivity.
Qed.

Lemma var_here_shape s name after :
  JsString.var_here s = Some (name, after) ->
  s = JsString.whole_match name ++ after
  /\ name <> EmptyString /\ no_rparen name = true.
Proof.
  unfold JsString.var_here.
  destruct s as [|c1 [|c2 rest]]; try discriminate.
  destruct (Ascii.eqb_spec c1 JsString.dollar) as [->|]; [|discriminate].
  destruct (Ascii.eqb_spec c2 JsString.lparen) as [->|]; [|discriminate].
  cbn [andb]. destruct (JsString.until_rparen rest) as [[[|c n] a]|] eqn:U;
    try discriminate.
  intro E. inversion E; subst.
  apply until_rparen_shape in U. destruct U as [-> P].
  rewrite whole_match_append. repeat split; [discriminate | exact P].
Qed.

Lemma var_here_complete name after :
  name <> EmptyString -> no_rparen name = true ->
  JsString.var_here (JsString.whole_match name ++ after) = Some (name, after).
Proof.
  intros N P. rewrite whole_match_append. unfold JsString.var_here.
  rewrite !Ascii.eqb_refl. simpl.
  rewrite until_rparen_complete by exact P.
  destruct name; [contradiction | reflexivity].
Qed.

(** What the pattern finds is the text between [before] and [after]. *)
Lemma match_var_shape s : forall before name after,
  JsString.match_var s = Some (before, name, after) ->
  s = before ++ JsString.whole_match name ++ after.
Proof.
  induction s as [|c s IH]; intros before name after.
  - simpl. discriminate.
  - cbn [JsString.match_var].
    destruct (JsString.var_here (String c s)) as [[n a]|] eqn:V.
    + intro E. inversion E; subst. apply var_here_shape in V. exact (proj1 V).
    + destruct (JsString.match_var s) as [[[b n] a]|]; [|discriminate].
      intro E. inversion E; subst. simpl. f_equal. apply IH. reflexivity.
Qed.

Lemma prefix_split pat : forall s,
  String.prefix pat s = true ->
  s = pat ++ JsString.drop (String.length pat) s.
Proof.
  induction pat as [|c pat IH]; intros s.
  - destruct s; reflexivity.
  - destruct s as [|d s]; simpl; [discriminate|].
    destruct (ascii_dec c d) as [->|]; [|discriminate].
    intro E. f_equal. apply IH. exact E.
Qed.

Lemma prefix_append pat after : String.prefix pat (pat ++ after) = true.
Proof.
  induction pat as [|c pat IH]; simpl; [destruct after; reflexivity|].
  destruct (ascii_dec c c); [exact IH | contradiction].
Qed.

Lemma drop_append pat after :
  JsString.drop (String.length pat) (pat ++ after) = after.
Proof.
  induction pat as [|c pat IH]; simpl; [destruct after; reflexivity | exact IH].
Qed.

Lemma match_var_name s : forall before name after,
  JsString.match_var s = Some (before, name, after) ->
  name <> EmptyString /\ no_rparen name = true.
Proof.
  induction s as [|c s IH]; intros before name after.
  - simpl. discriminate.
  - cbn [JsString.match_var].
    destruct (JsString.var_here (String c s)) as [[n a]|] eqn:V.
    + intro E. inversion E; subst. apply var_here_shape in V. apply V.
    + destruct (JsString.match_var s) as [[[b n] a]|]; [|discriminate].
      intro E. inversion E; subst. eapply IH. reflexivity.
Qed.

Lemma var_here_split s name after :
  JsString.var_here s = Some (name, after) ->
  JsString.split_first (JsString.whole_match name) s
  = Some (EmptyString, after).
Proof.
  intro V. apply var_here_shape in V. destruct V as [-> _].
  rewrite whole_match_append. cbn [JsString.split_first].
  rewrite <- whole_match_append.
  rewrite prefix_append, drop_append. reflexivity.
Qed.

Lemma prefix_var_here name t :
  name <> EmptyString -> no_rparen name = true ->
  String.prefix (JsString.whole_match name) t = true ->
  JsString.var_here t <> None.
Proof.
  intros N P Pre. apply prefix_split in Pre. rewrite Pre.
  rewrite var_here_complete by assumption. discriminate.
Qed.

(** The first occurrence of [match[0]] in the value is the match itself: no
    earlier place holds the same text, for the pattern would have matched
    there. *)
Lemma split_first_at_match s : forall before name after,
  JsString.match_var s = Some (before, name, after) ->
  JsString.split_first (JsString.whole_match name) s = Some (before, after).
Proof.
  induction s as [|c s IH]; intros before name after.
  - simpl. discriminate.
  - cbn [JsString.match_var].
    destruct (JsString.var_here (String c s)) as [[n a]|] eqn:V.
    + intro E. inversion E; subst. apply var_here_split. exact V.
    + destruct (JsString.match_var s) as [[[b n] a]|] eqn:Mv; [|discriminate].
      intro E. inversion E; subst. cbn [JsString.split_first].
      destruct (String.prefix (JsString.whole_match name) (String c s)) eqn:P.
      * exfalso. destruct (match_var_name _ _ _ _ Mv) as [N Pn].
        apply (prefix_var_here name (String c s) N Pn P). exact V.
      * rewrite (IH _ _ _ eq_refl). reflexivity.
Qed.

Lemma count_dollar_append a b :
  count_dollar (a ++ b) = count_dollar a + count_dollar b.
Proof.
  induction a as [|c a IH]; simpl; [reflexivity | rewrite IH; lia].
Qed.

(** A replacement text without a dollar sign is inserted as it is. *)
Lemma GetSubstitution_plain matched before after repl :
  count_dollar repl = 0 ->
  JsString.GetSubstitution matched before after repl = repl.
Proof.
  induction repl as [|c tail IH]; [reflexivity|].
  cbn [count_dollar]. destruct (Ascii.eqb c JsString.dollar) eqn:D;
    [discriminate|].
  intro Z. cbn [JsString.GetSubstitution]. rewrite D.
  destruct tail as [|d tail']; [reflexivity|].
  rewrite IH by exact Z. reflexivity.
Qed.

(** One turn of the loop, for a value without a dollar sign: the leftmost
    reference is replaced by the value's string form. *)
Lemma replace_reference_plain s before name after repl :
  JsString.match_var s = Some (before, name, after) ->
  count_dollar repl = 0 ->
  JsString.replace s (JsString.whole_match name) repl
  = before ++ repl ++ after.
Proof.
  intros Mv Z. unfold JsString.replace.
  rewrite (split_first_at_match _ _ _ _ Mv).
  rewrite GetSubstitution_plain by exact Z. reflexivity.
Qed.

(** More fuel does not change what a finished loop gives. *)
Lemma replace_loop_more_fuel fuel : forall value resolved extra,
  replace_loop fuel value resolved <> Hung ->
  replace_loop (fuel + extra) value resolved = replace_loop fuel value resolved.
Proof.
  induction fuel as [|fuel IH]; intros value resolved extra; simpl.
  - intro N. contradiction.
  - destruct (JsString.match_var value) as [[[before varName] after]|];
      [|reflexivity].
    destruct (JsObject.get varName resolved) as [v|]; [|reflexivity].
    destruct (truthy v); [|reflexivity]. apply IH.
Qed.

(** What the loop returns holds no reference any more. *)
Lemma replace_loop_done fuel : forall value resolved result,
  replace_loop fuel value resolved = Done result ->
  JsString.match_var result = None.
Proof.
  induction fuel as [|fuel IH]; intros value resolved result; simpl;
    [discriminate|].
  destruct (JsString.match_var value) as [[[before varName] after]|] eqn:Mv.
  - destruct (JsObject.get varName resolved) as [v|]; [|discriminate].
    destruct (truthy v); [|discriminate]. apply IH.
  - intro E. inversion E; subst. exact Mv.
Qed.

(** When no resolved value holds a dollar sign, every turn of the loop
    removes one, so the loop ends within as many turns as the value has
    dollar signs. *)
Lemma replace_loop_ends_plain resolved :
  plain_values resolved ->
  forall fuel value,
    count_dollar value < fuel ->
    replace_loop fuel value resolved <> Hung.
Proof.
  intros Pl. induction fuel as [|fuel IH]; intros value L; [lia|].
  simpl.
  destruct (JsString.match_var value) as [[[before varName] after]|] eqn:Mv;
    [|discriminate].
  destruct (JsObject.get varName resolved) as [v|] eqn:G; [|discriminate].
  destruct (truthy v) eqn:T; [|discriminate].
  rewrite (replace_reference_plain _ _ _ _ _ Mv (Pl _ _ G T)).
  apply IH.
  rewrite (match_var_shape _ _ _ _ Mv) in L.
  rewrite !count_dollar_append in *. rewrite (Pl _ _ G T).
  unfold JsString.whole_match in L. simpl in L. lia.
Qed.

(** ** Undefined variables *)


(** The loop throws nothing but the undefined-variable error, and only for
    a name that [resolved] does not hold with a truthy value. *)
Lemma replace_loop_throws fuel : forall value resolved message,
  replace_loop fuel value resolved = Threw message ->
  exists varName,
    message = undefined_variable varName /\ truthy_at varName resolved = false.
Proof.
  induction fuel as [|fuel IH]; intros value resolved message; simpl;
    [discriminate|].
  destruct (JsString.match_var value) as [[[before varName] after]|];
    [|discriminate].
  unfold truthy_at.
  destruct (JsObject.get varName resolved) as [v|] eqn:G.
  - destruct (truthy v) eqn:T.
    + intro E. apply IH in E. exact E.
    + intro E. inversion E. exists varName. rewrite G. auto.
  - intro E. inversion E. exists varName. rewrite G. auto.
Qed.






(** A reference to a key whose value is the empty string, and a key
    referring to itself. *)
Example empty_value_is_undefined :
  flatten 5 [("a", VStr ""); ("b", VStr "$(a)")]
  = (Threw (undefined_variable "a"), mkState [("a", VStr "")] []).
Proof. reflexivity. Qed.

(** A forward reference, through [main]: nothing is emitted but the failure. *)
Example forward_reference_fails_the_run :
  main 5 (fun p => inr (JsRegExp.literal p))
    [Parsed (VMap [("b", VStr "$(a)"); ("a", VStr "x")])] "" ""
  = Finished [SetFailed (undefined_variable "a")].
Proof. reflexivity. Qed.

Example self_reference_is_undefined :
  flatten 5 [("a", VStr "$(a)")]
  = (Threw (undefined_variable "a"), mkState [] []).
Proof. reflexivity. Qed.

(** ** Substitution *)

(** The scenario of the README: three references to earlier keys. *)
Lemma resource_group_name_resolved fuel :
  flatten (4 + fuel) resource_group_doc
  = (Done tt,
     mkState [("namespace", VStr "ns"); ("location", VStr "loc");
              ("environment", VStr "dev");
              ("resource_group_name", VStr "ns-loc-dev")] []).
Proof. reflexivity. Qed.

(** C1 fails where the looked-up value holds a dollar sign:
    [value.replace(match[0], resolved[varName])] reads [$$], [$&], [$`] and
    [$'] in its second argument as replacement patterns, so for
    [{a: "$$", b: "$(a)"}] the key [b] resolves to ["$"], not to the string
    form ["$$"] of [a]. *)
Theorem dollar_in_value_is_rewritten :
  forall fuel,
    JsObject.get "a" [("a", VStr "$$")] = Some (VStr "$$")
    /\ JsString.replace "$(a)" (JsString.whole_match "a") (ToString (VStr "$$"))
       = "$"
    /\ flatten (2 + fuel) [("a", VStr "$$"); ("b", VStr "$(a)")]
       = (Done tt, mkState [("a", VStr "$$"); ("b", VStr "$")] []).
Proof.
  intro fuel. repeat split.
Qed.

(** ** Termination of the substitution loop *)

(** C5 fails for the same reason: the value ["$&"] stands for the matched
    text, so replacing [$(a)] by it gives [$(a)] back and the loop of
    [replaceVariables] never ends, with no error raised, on
    [{a: "$&", b: "$(a)"}]. *)
Theorem matched_text_pattern_loops_forever :
  forall fuel,
    JsString.replace "$(a)" (JsString.whole_match "a") "$&" = "$(a)"
    /\ replace_loop fuel "$(a)" [("a", VStr "$&")] = Hung
    /\ flatten (S fuel) [("a", VStr "$&"); ("b", VStr "$(a)")]
       = (Hung, mkState [("a", VStr "$&")] []).
Proof.
  assert (L : forall fuel, replace_loop fuel "$(a)" [("a", VStr "$&")] = Hung).
  { induction fuel as [|fuel IH]; [reflexivity|].
    change (replace_loop (S fuel) "$(a)" [("a", VStr "$&")])
      with (replace_loop fuel "$(a)" [("a", VStr "$&")]).
    exact IH. }
  intro fuel. split; [reflexivity|]. split; [apply L|].
  unfold flatten. cbn [resolveFields]. unfold bind.
  rewrite resolveField_leaf by reflexivity.
  change (replaceVariables (S fuel) (VStr "$&") (resolved (mkState [] [])))
    with (@Done Value (VStr "$&")).
  cbv iota beta.
  rewrite resolveField_leaf by reflexivity.
  cbn [replaceVariables write resolved JsObject.set].
  change ("" ++ "a") with "a". rewrite L. reflexivity.
Qed.

(** ** Merging *)

Lemma deepMerge_map fa fb :
  deepMerge (VMap fa) (VMap fb) = VMap (merged_fields fa fb).
Proof.
  unfold merged_fields. simpl. f_equal. f_equal.
  induction fa as [|[k va] fa IH]; simpl; [reflexivity|].
  f_equal. exact IH.
Qed.

Lemma deepMerge_not_map_r a b :
  (forall fb, b <> VMap fb) -> deepMerge a b = b.
Proof.
  intro N. destruct a; try reflexivity. destruct b; try reflexivity.
  exfalso. eapply N. reflexivity.
Qed.

Lemma deepMerge_not_map_l a b :
  (forall fa, a <> VMap fa) -> deepMerge a b = b.
Proof.
  intro N. destruct a; try reflexivity. exfalso. eapply N. reflexivity.
Qed.

Lemma deepMerge_empty_l b : deepMerge (VMap []) b = b.
Proof.
  destruct b; try reflexivity.
  rewrite deepMerge_map. unfold merged_fields. simpl. f_equal.
  induction fields as [|kv fs IH]; simpl; [reflexivity|].
  f_equal. exact IH.
Qed.

Lemma get_map_fields (f : string -> Value -> Value) k fa :
  JsObject.get k (map (fun kv => (fst kv, f (fst kv) (snd kv))) fa)
  = option_map (f k) (JsObject.get k fa).
Proof.
  induction fa as [|[k' v] fa IH]; simpl; [reflexivity|].
  destruct (String.eqb_spec k' k) as [->|N]; [reflexivity | exact IH].
Qed.

Lemma get_app k l1 l2 :
  JsObject.get k (l1 ++ l2)%list
  = match JsObject.get k l1 with
    | Some v => Some v
    | None => JsObject.get k l2
    end.
Proof.
  induction l1 as [|[k' v] l1 IH]; simpl; [reflexivity|].
  destruct (String.eqb k' k); [reflexivity | exact IH].
Qed.

Lemma get_filter_keys (keep : string -> bool) k l :
  keep k = true ->
  JsObject.get k (filter (fun kv => keep (fst kv)) l) = JsObject.get k l.
Proof.
  intro K. induction l as [|[k' v] l IH]; simpl; [reflexivity|].
  destruct (String.eqb_spec k' k) as [->|N].
  - rewrite K. simpl. rewrite String.eqb_refl. reflexivity.
  - destruct (keep k'); simpl; [|exact IH].
    destruct (String.eqb_spec k' k); [contradiction | exact IH].
Qed.

(** The value a merged mapping holds under a key. *)
Lemma get_merged_fields k fa fb :
  JsObject.get k (merged_fields fa fb)
  = match JsObject.get k fa, JsObject.get k fb with
    | Some va, Some vb => Some (deepMerge va vb)
    | Some va, None => Some va
    | None, other => other
    end.
Proof.
  unfold merged_fields. rewrite get_app.
  rewrite (get_map_fields
             (fun k va => match JsObject.get k fb with
                          | Some vb => deepMerge va vb
                          | None => va
                          end)).
  destruct (JsObject.get k fa) as [va|] eqn:G; simpl.
  - destruct (JsObject.get k fb); reflexivity.
  - rewrite (get_filter_keys (fun k => negb (JsObject.has k fa))).
    + destruct (JsObject.get k fb); reflexivity.
    + unfold JsObject.has. rewrite G. reflexivity.
Qed.

Lemma deepMerge_seq_at_path path : forall a b sa sb,
  at_path path a = Some (VSeq sa) ->
  at_path path b = Some (VSeq sb) ->
  at_path path (deepMerge a b) = Some (VSeq sb).
Proof.
  induction path as [|[k|i] path IH]; intros a b sa sb A B; simpl in *.
  - inversion A; inversion B; subst. reflexivity.
  - destruct a as [ | | | | |fa]; try discriminate.
    destruct b as [ | | | | |fb]; try discriminate.
    rewrite deepMerge_map. rewrite get_merged_fields.
    destruct (JsObject.get k fa) as [va|]; [|discriminate].
    destruct (JsObject.get k fb) as [vb|]; [|discriminate].
    eapply IH; eassumption.
  - destruct a as [ | | | |ea| ]; try discriminate.
    destruct b as [ | | | |eb| ]; try discriminate.
    simpl. exact B.
Qed.

(** C3: when the same path holds a sequence in both [a] and [b], the merge
    of [[a, b]] holds at that path exactly the sequence of [b]: the later
    sequence replaces the earlier one whole. *)
Theorem merge_replaces_sequences :
  forall a b path sa sb,
    at_path path a = Some (VSeq sa) ->
    at_path path b = Some (VSeq sb) ->
    at_path path (merge [a; b]) = Some (VSeq sb).
Proof.
  intros a b path sa sb A B. unfold merge. cbn [fold_left].
  rewrite deepMerge_empty_l. eapply deepMerge_seq_at_path; eassumption.
Qed.

Lemma merge_replaces_sequences_witness :
  at_path [Key "k"; Key "l"]
    (merge [VMap [("k", VMap [("l", VSeq [VNum 1; VNum 2]); ("m", VNum 0)])];
            VMap [("k", VMap [("l", VSeq [VNum 3])])]])
  = Some (VSeq [VNum 3]).
Proof.
  apply (merge_replaces_sequences _ _ [Key "k"; Key "l"] [VNum 1; VNum 2] [VNum 3]);
    reflexivity.
Defined.

(** The loop of [main] over parsed files computes [merge]. *)
Lemma load_all_merges keyPathPattern trees : forall mergedConfig st,
  fst (load_all keyPathPattern (map Parsed trees) mergedConfig st)
  = Done (fold_left deepMerge trees mergedConfig).
Proof.
  induction trees as [|t ts IH]; intros mergedConfig st; [reflexivity|].
  cbn [map load_all fold_left]. unfold bind at 1.
  destruct (when (given keyPathPattern) _ st) as [[[]| |] st1] eqn:W.
  - apply IH.
  - unfold when in W. destruct (given keyPathPattern); discriminate.
  - unfold when in W. destruct (given keyPathPattern); discriminate.
Qed.

(** The scenario of section 8. *)
Example merge_two_documents :
  merge [VMap [("a", VNum 1); ("b", VMap [("x", VNum 1)])];
         VMap [("b", VMap [("y", VNum 2)])]]
  = VMap [("a", VNum 1); ("b", VMap [("x", VNum 1); ("y", VNum 2)])].
Proof. reflexivity. Qed.

(** C9: merging [[a, b, c]] is merging [[merge [a, b], c]], for all trees;
    and the order of the documents matters: for [a = {x: 1}] and [b = {x: 2}]
    the two orders give different trees. *)
Theorem merge_associative_not_commutative :
  (forall a b c, merge [a; b; c] = merge [merge [a; b]; c])
  /\ (exists a b, merge [a; b] <> merge [b; a]).
Proof.
  split.
  - intros a b c. unfold merge. cbn [fold_left].
    rewrite !deepMerge_empty_l. reflexivity.
  - exists (VMap [("x", VNum 1)]), (VMap [("x", VNum 2)]).
    vm_compute. discriminate.
Qed.

(** ** Emission *)

Lemma outputs_app l1 l2 : outputs (l1 ++ l2) = (outputs l1 ++ outputs l2)%list.
Proof.
  induction l1 as [|e l1 IH]; simpl; [reflexivity|].
  destruct e; simpl; rewrite ?IH; reflexivity.
Qed.

Lemma export_spec envVarPrefix k value st :
  exists evs,
    export envVarPrefix k value st = (Done tt, mkState (resolved st) (log st ++ evs))
    /\ outputs evs = [].
Proof.
  unfold export, when. destruct (given envVarPrefix).
  - eexists. unfold bind, modify, emit. simpl. split.
    + rewrite <- app_assoc. reflexivity.
    + reflexivity.
  - exists []. unfold ret. rewrite app_nil_r. destruct st. split; reflexivity.
Qed.

Lemma emit_entry_spec reKPP keyPathPattern envVarPrefix val st :
  exists evs,
    emit_entry reKPP keyPathPattern envVarPrefix val st
    = (Done tt, mkState (resolved st) (log st ++ evs))
    /\ outputs evs = entry_outputs reKPP keyPathPattern val.
Proof.
  unfold emit_entry, entry_outputs. destruct val as [key value]. simpl.
  destruct (given keyPathPattern).
  - destruct (JsRegExp.matches reKPP key).
    + unfold bind at 1 2. unfold modify at 1 2. unfold emit. simpl.
      match goal with
      | |- context [export ?p ?k ?v ?s] =>
          destruct (export_spec p k v s) as [evs [E O]]; rewrite E
      end.
      simpl. eexists. split.
      * rewrite <- !app_assoc. reflexivity.
      * simpl. rewrite O. reflexivity.
    + exists []. unfold ret. rewrite app_nil_r. destruct st. split; reflexivity.
  - unfold bind at 1 2. unfold modify at 1 2. unfold emit. simpl.
    match goal with
    | |- context [export ?p ?k ?v ?s] =>
        destruct (export_spec p k v s) as [evs [E O]]; rewrite E
    end.
    simpl. eexists. split.
    + rewrite <- !app_assoc. reflexivity.
    + simpl. rewrite O. reflexivity.
Qed.

Lemma emit_entries_spec reKPP keyPathPattern envVarPrefix entries : forall st,
  exists evs,
    emit_entries reKPP keyPathPattern envVarPrefix entries st
    = (Done tt, mkState (resolved st) (log st ++ evs))
    /\ outputs evs = flat_map (entry_outputs reKPP keyPathPattern) entries.
Proof.
  induction entries as [|val rest IH]; intro st; simpl.
  - exists []. unfold ret. rewrite app_nil_r. destruct st. split; reflexivity.
  - unfold bind.
    destruct (emit_entry_spec reKPP keyPathPattern envVarPrefix val st)
      as [e1 [E1 O1]].
    rewrite E1.
    destruct (IH (mkState (resolved st) (log st ++ e1))) as [e2 [E2 O2]].
    rewrite E2. simpl. exists (e1 ++ e2)%list. split.
    + rewrite app_assoc. reflexivity.
    + rewrite outputs_app, O1, O2. reflexivity.
Qed.

Lemma flat_map_filter_map {A B} (keep : A -> bool) (f : A -> B) l :
  flat_map (fun x => if keep x then [f x] else []) l = map f (filter keep l).
Proof.
  induction l as [|x l IH]; simpl; [reflexivity|].
  destruct (keep x); simpl; rewrite IH; reflexivity.
Qed.

(** C8, as stated, fails: the pattern is compiled with the [g] flag, so
    [key.replace(reKPP, '')] deletes every match.  With the pattern [dev] the
    key [dev.dev.name] is emitted as [..name], not as [.dev.name]. *)
Lemma later_matches_are_deleted_too :
  outputs (log (snd (emit_entries (JsRegExp.literal "dev") "dev" ""
                       [("dev.dev.name", VStr "n")] (mkState [] []))))
  = [("..name", VStr "n")]
  /\ delete_first_match (JsRegExp.literal "dev") "dev.dev.name" = ".dev.name"
  /\ outputs (log (snd (emit_entries (JsRegExp.literal "dev") "dev" ""
                          [("dev.dev.name", VStr "n")] (mkState [] []))))
     <> [(delete_first_match (JsRegExp.literal "dev") "dev.dev.name", VStr "n")].
Proof.
  repeat split. vm_compute. discriminate.
Qed.

(** C8 (amended): for every Resolved Map and every present filter pattern,
    the emission loop completes and the outputs it sets are, in order, exactly
    the entries whose key matches the pattern, each under the key with every
    match of the pattern deleted. *)
Theorem filter_emits_matching_entries :
  forall reKPP keyPathPattern envVarPrefix entries st,
    given keyPathPattern = true ->
    let run := emit_entries reKPP keyPathPattern envVarPrefix entries st in
    fst run = Done tt
    /\ outputs (log (snd run))
       = (outputs (log st)
          ++ map (fun kv => (JsRegExp.delete_matches reKPP (fst kv), snd kv))
               (filter (fun kv => JsRegExp.matches reKPP (fst kv)) entries))%list.
Proof.
  intros reKPP keyPathPattern envVarPrefix entries st G run. subst run.
  destruct (emit_entries_spec reKPP keyPathPattern envVarPrefix entries st)
    as [evs [E O]].
  rewrite E. simpl. split; [reflexivity|].
  rewrite outputs_app, O. f_equal.
  unfold entry_outputs. rewrite G.
  apply (flat_map_filter_map (fun kv => JsRegExp.matches reKPP (fst kv))
           (fun kv => (JsRegExp.delete_matches reKPP (fst kv), snd kv))).
Qed.

Lemma filter_emits_matching_entries_witness :
  outputs (log (snd (emit_entries (JsRegExp.literal "prod.") "prod." "P"
                       [("prod.x", VNum 1); ("dev.x", VNum 2)] (mkState [] []))))
  = [("x", VNum 1)].
Proof.
  apply (filter_emits_matching_entries (JsRegExp.literal "prod.") "prod." "P"
           [("prod.x", VNum 1); ("dev.x", VNum 2)] (mkState [] [])).
  reflexivity.
Defined.

(** ** Failing runs *)

Lemma load_all_log keyPathPattern files : forall mergedConfig st r st',
  load_all keyPathPattern files mergedConfig st = (r, st') ->
  resolved st' = resolved st
  /\ exists evs, log st' = (log st ++ evs)%list /\ Forall notice evs.
Proof.
  assert (W : forall (k : M Value) msg1 msg2 st r st',
             (when (given keyPathPattern)
                (modify (emit (Info msg1)) ;; modify (emit (Info msg2))) ;; k) st
             = (r, st') ->
             exists st1,
               k st1 = (r, st') /\ resolved st1 = resolved st
               /\ exists evs, log st1 = (log st ++ evs)%list /\ Forall notice evs).
  { intros k msg1 msg2 st r st'. unfold when.
    destruct (given keyPathPattern); unfold bind, modify, ret; simpl; intro E.
    - eexists. split; [exact E|]. split; [reflexivity|]. simpl.
      exists [Info msg1; Info msg2]. split.
      + rewrite <- app_assoc. reflexivity.
      + repeat constructor; eexists; reflexivity.
    - exists st. split; [exact E|]. split; [reflexivity|].
      exists []. split; [symmetry; apply app_nil_r | constructor]. }
  induction files as [|file rest IH]; intros mergedConfig st r st'; simpl.
  - unfold ret. intro E. inversion E; subst. split; [reflexivity|].
    exists []. split; [symmetry; apply app_nil_r | constructor].
  - destruct file as [message | message | configYaml].
    + unfold throw. intro E. inversion E; subst. split; [reflexivity|].
      exists []. split; [symmetry; apply app_nil_r | constructor].
    + intro E. apply W in E. destruct E as [st1 [E [R [evs [L F]]]]].
      unfold throw in E. inversion E; subst. split; [exact R|].
      exists evs. split; assumption.
    + intro E. apply W in E. destruct E as [st1 [E [R [evs [L F]]]]].
      apply IH in E. destruct E as [R' [evs' [L' F']]].
      split; [congruence|].
      exists (evs ++ evs')%list. split.
      * rewrite L', L, app_assoc. reflexivity.
      * apply Forall_app. split; assumption.
Qed.

Lemma outputs_side_channel events :
  Forall side_channel events ->
  forall name value,
    In (name, value) (outputs events) ->
    exists p elems, name = p ++ ".array" /\ value = VSeq elems.
Proof.
  induction 1 as [|e es [[m ->]|[p [elems ->]]] _ IH]; intros name value; simpl.
  - tauto.
  - apply IH.
  - intros [E|I]; [inversion E; subst; eauto | apply IH; exact I].
Qed.

(** A run that fails has sent the emitter nothing but log messages and
    array marks. *)
Lemma failed_try_log fuel RegExp files keyPathPattern envVarPrefix message st :
  main_try fuel RegExp files keyPathPattern envVarPrefix (mkState [] [])
  = (Threw message, st) ->
  Forall side_channel (log st).
Proof.
  unfold main_try. unfold bind at 1.
  destruct (load_all keyPathPattern files (VMap []) (mkState [] []))
    as [r1 st1] eqn:E1.
  apply load_all_log in E1. destruct E1 as [_ [ev1 [L1 F1]]]. simpl in L1.
  assert (S1 : Forall side_channel (log st1)).
  { rewrite L1. eapply Forall_impl; [|exact F1]. intros e N. left. exact N. }
  destruct r1 as [mergedConfig | m | ]; intro E; try (inversion E; subst; exact S1).
  unfold bind at 1, lift in E.
  destruct (Object_entries mergedConfig) as [entries | m | ];
    try (inversion E; subst; exact S1).
  unfold bind at 1 in E.
  destruct (resolveFields fuel entries "" st1) as [r2 st2] eqn:E2.
  apply resolveFields_extends_all in E2. destruct E2 as [[ev2 [L2 F2]] _].
  assert (S2 : Forall side_channel (log st2)).
  { rewrite L2. apply Forall_app. split; [exact S1|].
    eapply Forall_impl; [|exact F2]. intros e N. right. exact N. }
  destruct r2 as [[] | m | ]; try (inversion E; subst; exact S2).
  destruct (RegExp keyPathPattern) as [m | reKPP].
  - unfold throw in E. inversion E; subst. exact S2.
  - destruct (emit_entries_spec reKPP keyPathPattern envVarPrefix
                (resolved st2) st2) as [evs [E3 _]].
    rewrite E3 in E. discriminate.
Qed.

(** C4, as stated, fails: the array mark is set while the tree is walked, so
    for [{arr: ["1"], x: "$(y)"}] the output [arr.array] has reached the
    emitter when the undefined variable [y] stops the run. *)
Lemma failed_run_has_set_an_output :
  main 1 (fun p => inr (JsRegExp.literal p)) failing_after_array "" ""
  = Finished [SetOutput "arr.array" (VSeq [VStr "1"]);
              SetFailed (undefined_variable "y")]
  /\ outputs (events_of (main 1 (fun p => inr (JsRegExp.literal p))
                           failing_after_array "" "")) <> [].
Proof.
  split; [reflexivity | vm_compute; discriminate].
Qed.

(** C4 (amended): for every run that fails, for any error kind, no entry of
    the Resolved Map is emitted and no environment variable exported: the run
    ends with the one failure message, and before it the emitter has received
    only log messages and the whole-array outputs, named [p.array], of the
    sequences visited before the failure. *)
Theorem failed_run_emits_no_entries :
  forall fuel RegExp files keyPathPattern envVarPrefix message st,
    main_try fuel RegExp files keyPathPattern envVarPrefix (mkState [] [])
    = (Threw message, st) ->
    main fuel RegExp files keyPathPattern envVarPrefix
    = Finished (log st ++ [SetFailed message])
    /\ Forall side_channel (log st)
    /\ forall name value,
         In (name, value)
            (outputs (events_of (main fuel RegExp files keyPathPattern
                                   envVarPrefix))) ->
         exists p elems, name = p ++ ".array" /\ value = VSeq elems.
Proof.
  intros fuel RegExp files keyPathPattern envVarPrefix message st E.
  pose proof (failed_try_log _ _ _ _ _ _ _ E) as F.
  assert (R : main fuel RegExp files keyPathPattern envVarPrefix
              = Finished (log st ++ [SetFailed message])).
  { unfold main. rewrite E. reflexivity. }
  split; [exact R|]. split; [exact F|].
  intros name value. rewrite R. simpl. rewrite outputs_app. simpl.
  rewrite app_nil_r. apply outputs_side_channel. exact F.
Qed.

Lemma failed_run_emits_no_entries_witness :
  main 1 (fun p => inr (JsRegExp.literal p)) failing_after_array "" ""
  = Finished (log (mkState [("arr.0", VStr "1")]
                     [SetOutput "arr.array" (VSeq [VStr "1"])])
              ++ [SetFailed (undefined_variable "y")]).
Proof.
  apply (failed_run_emits_no_entries 1 (fun p => inr (JsRegExp.literal p))
           failing_after_array "" "" (undefined_variable "y")
           (mkState [("arr.0", VStr "1")]
              [SetOutput "arr.array" (VSeq [VStr "1"])])).
  reflexivity.
Defined.

(** * Further properties of the engine *)

(** ** A scheme for what the traversal keeps *)

Section TraversalScheme.

Variable Q : State -> State -> Prop.
Hypothesis Q_refl : forall st, Q st st.
Hypothesis Q_trans : forall st1 st2 st3, Q st1 st2 -> Q st2 st3 -> Q st1 st3.
Hypothesis Q_emit : forall e st, Q st (emit e st).
Hypothesis Q_write :
  forall fuel v key st r,
    is_leaf v = true ->
    replaceVariables fuel v (resolved st) = Done r ->
    Q st (write key r st).

Lemma resolveFields_keeps fuel entries :
  Forall (fun kv => forall prefix key st r st',
              resolveField fuel prefix key (snd kv) st = (r, st') -> Q st st')
         entries ->
  forall prefix st r st',
    resolveFields fuel entries prefix st = (r, st') -> Q st st'.
Proof.
  induction 1 as [|[k v] es Hv _ IH]; intros prefix st r st'; simpl.
  - unfold ret. intro E. inversion E. apply Q_refl.
  - unfold bind. destruct (resolveField fuel prefix k v st) as [r1 st1] eqn:E1.
    apply Hv in E1. simpl in *.
    destruct r1; intro E; try (inversion E; subst; exact E1).
    eapply Q_trans; [exact E1 | eapply IH; exact E].
Qed.

Lemma resolveField_keeps fuel v : forall prefix key st r st',
  resolveField fuel prefix key v st = (r, st') -> Q st st'.
Proof.
  induction v as [ | b | z | s | elems IH | fields IH ] using Value_nested_ind;
    intros prefix key st r st'.
  1-4: rewrite resolveField_leaf by reflexivity;
       match goal with
       | |- context [replaceVariables ?f ?v (resolved ?s0)] =>
           destruct (replaceVariables f v (resolved s0)) eqn:R
       end;
       intro E; inversion E; subst;
       try apply Q_refl; eapply Q_write; [|exact R]; reflexivity.
  - rewrite resolveField_seq. unfold bind, modify. intro E.
    eapply Q_trans; [apply Q_emit|].
    eapply resolveFields_keeps; [|exact E].
    apply Forall_indexed with (P := fun v => forall prefix key st r st',
      resolveField fuel prefix key v st = (r, st') -> Q st st').
    exact IH.
  - rewrite resolveField_map. apply resolveFields_keeps. exact IH.
Qed.

Lemma traversal_keeps fuel entries prefix st r st' :
  resolveFields fuel entries prefix st = (r, st') -> Q st st'.
Proof.
  apply resolveFields_keeps.
  apply Forall_forall. intros kv _ p k. apply resolveField_keeps.
Qed.

End TraversalScheme.

(** ** What [replaceVariables] gives for a leaf *)

Lemma replaceVariables_leaf fuel v resolved r :
  is_leaf v = true ->
  replaceVariables fuel v resolved = Done r ->
  leaf_result r = true
  /\ forall s, r = VStr s -> JsString.match_var s = None.
Proof.
  destruct v; try discriminate; intros _; simpl.
  - intro E. inversion E; subst. split; [reflexivity | discriminate].
  - intro E. inversion E; subst. split; [reflexivity | discriminate].
  - intro E. inversion E; subst. split; [reflexivity | discriminate].
  - destruct (replace_loop fuel s resolved) as [s'| |] eqn:L; try discriminate.
    intro E. inversion E; subst. split; [reflexivity|].
    intros s0 E0. inversion E0; subst. eapply replace_loop_done. exact L.
Qed.

Lemma get_set_cases key v k o w :
  JsObject.get k (JsObject.set key v o) = Some w ->
  (k = key /\ w = v) \/ JsObject.get k o = Some w.
Proof.
  destruct (String.eqb_spec k key) as [->|N].
  - rewrite get_set_same. intro E. inversion E. left. split; reflexivity.
  - rewrite get_set_other by exact N. right. assumption.
Qed.

Lemma keys_set key v o :
  map fst (JsObject.set key v o)
  = if JsObject.has key o then map fst o else (map fst o ++ [key])%list.
Proof.
  unfold JsObject.has.
  induction o as [|[k w] o IH]; simpl; [reflexivity|].
  destruct (String.eqb_spec k key) as [->|N]; simpl; [reflexivity|].
  rewrite IH. destruct (JsObject.get key o); reflexivity.
Qed.



(** ** Invariants of the Resolved Map *)

(** X5: after a traversal, whether it completed or stopped on an error, no
    string of [resolved] holds a reference: every one passed the loop of
    [replaceVariables] to its end. *)
Theorem resolved_strings_hold_no_reference :
  forall fuel entries prefix st r st',
    reference_free_map (resolved st) ->
    resolveFields fuel entries prefix st = (r, st') ->
    forall k s,
      JsObject.get k (resolved st') = Some (VStr s) ->
      JsString.match_var s = None.
Proof.
  intros fuel entries prefix st r st' I E.
  revert I.
  apply (traversal_keeps
           (fun a b => reference_free_map (resolved a) ->
                       reference_free_map (resolved b)))
    with (fuel := fuel) (entries := entries) (prefix := prefix) (r := r);
    try exact E; clear; auto.
  intros fuel v key st r L R I k s G. simpl in G.
  apply get_set_cases in G. destruct G as [[-> W]|G].
  - eapply replaceVariables_leaf; [exact L | exact R | symmetry; exact W].
  - eapply I. exact G.
Qed.

Lemma resolved_strings_hold_no_reference_witness :
  JsString.match_var "ns-loc-dev" = None.
Proof.
  apply (resolved_strings_hold_no_reference 4 resource_group_doc "" (mkState [] [])
           (Done tt) (snd (flatten 4 resource_group_doc)))
    with (k := "resource_group_name").
  - intros k s G. discriminate G.
  - reflexivity.
  - reflexivity.
Defined.

(** X6: the values of [resolved] are strings, numbers, booleans or the empty
    object: a traversal never writes [null], a sequence or a mapping with
    keys. *)
Theorem resolved_values_are_leaf_results :
  forall fuel entries prefix st r st',
    leaf_results (resolved st) ->
    resolveFields fuel entries prefix st = (r, st') ->
    forall k v, JsObject.get k (resolved st') = Some v -> leaf_result v = true.
Proof.
  intros fuel entries prefix st r st' I E.
  revert I.
  apply (traversal_keeps
           (fun a b => leaf_results (resolved a) -> leaf_results (resolved b)))
    with (fuel := fuel) (entries := entries) (prefix := prefix) (r := r);
    try exact E; clear; auto.
  intros fuel v key st r L R I k w G. simpl in G.
  apply get_set_cases in G. destruct G as [[-> ->]|G].
  - eapply replaceVariables_leaf; [exact L | exact R].
  - eapply I. exact G.
Qed.

Lemma resolved_values_are_leaf_results_witness :
  leaf_result (VMap []) = true.
Proof.
  apply (resolved_values_are_leaf_results 1 [("a", VNull)] "" (mkState [] [])
           (Done tt) (snd (flatten 1 [("a", VNull)])))
    with (k := "a").
  - intros k v G. discriminate G.
  - reflexivity.
  - reflexivity.
Defined.



(** ** Keys and array marks, accounted for *)

Lemma Reached_incl l1 l2 prefix p v :
  incl l1 l2 -> Reached l1 prefix p v -> Reached l2 prefix p v.
Proof.
  intros I R. destruct R as [es pre key v In1 | es pre key fields p v In1 R
                             | es pre key elems p v In1 R].
  - apply Reached_here. apply I. exact In1.
  - eapply Reached_in_map; [apply I; exact In1 | exact R].
  - eapply Reached_in_seq; [apply I; exact In1 | exact R].
Qed.

Lemma accounted_refl entries prefix st : accounted entries prefix st st.
Proof.
  split; [auto|]. exists []. split; [symmetry; apply app_nil_r | constructor].
Qed.

Lemma accounted_trans entries prefix st1 st2 st3 :
  accounted entries prefix st1 st2 -> accounted entries prefix st2 st3 ->
  accounted entries prefix st1 st3.
Proof.
  intros [K1 [e1 [L1 F1]]] [K2 [e2 [L2 F2]]]. split.
  - intros k H. destruct (K2 k H) as [H2|R]; [apply K1; exact H2 | right; exact R].
  - exists (e1 ++ e2)%list. split.
    + rewrite L2, L1, app_assoc. reflexivity.
    + apply Forall_app. split; assumption.
Qed.

Lemma accounted_via (l1 l2 : Obj) pre1 pre2 st st' :
  (forall p v, Reached l1 pre1 p v -> Reached l2 pre2 p v) ->
  accounted l1 pre1 st st' -> accounted l2 pre2 st st'.
Proof.
  intros W [K [evs [L F]]]. split.
  - intros k H. destruct (K k H) as [H1|[v [R Lf]]]; [left; exact H1|].
    right. exists v. split; [apply W; exact R | exact Lf].
  - exists evs. split; [exact L|].
    eapply Forall_impl; [|exact F].
    intros e [p [elems [-> R]]]. exists p, elems. split; [reflexivity|].
    apply W. exact R.
Qed.

Lemma has_set_cases key v k o :
  JsObject.has k (JsObject.set key v o) = true ->
  k = key \/ JsObject.has k o = true.
Proof.
  destruct (String.eqb_spec k key) as [->|N]; [left; reflexivity|].
  unfold JsObject.has. rewrite get_set_other by exact N. right. assumption.
Qed.

Lemma resolveFields_accounted fuel entries :
  Forall (fun kv => forall prefix key st r st',
              resolveField fuel prefix key (snd kv) st = (r, st') ->
              accounted [(key, snd kv)] prefix st st') entries ->
  forall prefix st r st',
    resolveFields fuel entries prefix st = (r, st') ->
    accounted entries prefix st st'.
Proof.
  induction 1 as [|[k v] es Hv _ IH]; intros prefix st r st'; simpl.
  - unfold ret. intro E. inversion E. apply accounted_refl.
  - unfold bind. destruct (resolveField fuel prefix k v st) as [r1 st1] eqn:E1.
    apply Hv in E1. simpl in E1.
    assert (A1 : accounted ((k, v) :: es) prefix st st1).
    { eapply accounted_via; [|exact E1].
      intros p w. apply Reached_incl. intros x [<-|[]]. left. reflexivity. }
    destruct r1; intro E; try (inversion E; subst; exact A1).
    eapply accounted_trans; [exact A1|].
    eapply accounted_via; [|eapply IH; exact E].
    intros p w. apply Reached_incl. intros x I. right. exact I.
Qed.

Lemma resolveField_accounted fuel v : forall prefix key st r st',
  resolveField fuel prefix key v st = (r, st') ->
  accounted [(key, v)] prefix st st'.
Proof.
  induction v as [ | b | z | s | elems IH | fields IH ] using Value_nested_ind;
    intros prefix key st r st'.
  1-4: rewrite resolveField_leaf by reflexivity;
       match goal with
       | |- context [replaceVariables ?f ?v (resolved ?s0)] =>
           destruct (replaceVariables f v (resolved s0)) eqn:R
       end;
       intro E; inversion E; subst; try apply accounted_refl;
       (split;
        [ intros k H; simpl in H; apply has_set_cases in H;
          destruct H as [->|H]; [right|left; exact H];
          eexists; split; [apply Reached_here; left; reflexivity | reflexivity]
        | exists []; split; [symmetry; apply app_nil_r | constructor] ]).
  - rewrite resolveField_seq. unfold bind, modify. intro E.
    apply accounted_trans
      with (st2 := emit (SetOutput ((prefix ++ key) ++ ".array") (VSeq elems)) st).
    + split; [auto|]. eexists. split; [reflexivity|]. repeat constructor.
      exists (prefix ++ key), elems. split; [reflexivity|].
      apply Reached_here. left. reflexivity.
    + eapply accounted_via;
        [|eapply (resolveFields_accounted fuel (indexed O elems)); [|exact E]].
      * intros p w R. eapply Reached_in_seq; [left; reflexivity | exact R].
      * clear E. generalize O.
        induction IH as [|x xs Hx _ IHxs]; intro i; simpl; constructor; auto.
  - rewrite resolveField_map. intro E.
    eapply accounted_via;
      [|eapply (resolveFields_accounted fuel fields); [|exact E]].
    + intros p w R. eapply Reached_in_map; [left; reflexivity | exact R].
    + eapply Forall_impl; [|exact IH]. intros [k w] Hw. simpl in *.
      intros p k'. apply Hw.
Qed.

Lemma traversal_accounted fuel entries prefix st r st' :
  resolveFields fuel entries prefix st = (r, st') ->
  accounted entries prefix st st'.
Proof.
  apply resolveFields_accounted.
  apply Forall_forall. intros kv _ p k. apply resolveField_accounted.
Qed.

Lemma outputs_In_inv name value events :
  In (name, value) (outputs events) -> In (SetOutput name value) events.
Proof.
  induction events as [|e es IH]; simpl; [tauto|].
  destruct e; simpl; auto.
  intros [E|I]; [inversion E; subst; left; reflexivity | right; auto].
Qed.



(** X10: a completed flattening sets, during the traversal, exactly one kind of
    output: for each sequence it visits at a key-path [p], the output
    [p.array] with the sequence as the document has it. *)
Theorem traversal_outputs_are_the_array_marks :
  forall fuel tree st,
    flatten fuel tree = (Done tt, st) ->
    forall name value,
      In (name, value) (outputs (log st))
      <-> exists p elems,
            name = p ++ ".array" /\ value = VSeq elems
            /\ Reached tree "" p (VSeq elems).
Proof.
  intros fuel tree st E name value. unfold flatten in E. split.
  - intro I. apply outputs_In_inv in I.
    destruct (traversal_accounted _ _ _ _ _ _ E) as [_ [evs [L F]]].
    simpl in L. rewrite L in I. rewrite Forall_forall in F.
    destruct (F _ I) as [p [elems [Eq R]]]. inversion Eq; subst.
    exists p, elems. auto.
  - intros [p [elems [-> [-> R]]]]. apply outputs_In.
    eapply reached_seq_marked; [exact R | reflexivity | exact E].
Qed.

Lemma traversal_outputs_are_the_array_marks_witness :
  In ("a.b.array", VSeq [VMap [("c", VNum 1)]; VMap [("c", VNum 2)]])
     (outputs (log (snd (flatten 1 nested_seq_doc))))
  <-> exists p elems,
        "a.b.array" = p ++ ".array"
        /\ VSeq [VMap [("c", VNum 1)]; VMap [("c", VNum 2)]] = VSeq elems
        /\ Reached nested_seq_doc "" p (VSeq elems).
Proof.
  apply (traversal_outputs_are_the_array_marks 1 nested_seq_doc). reflexivity.
Defined.

(** ** The loop of [replaceVariables] *)

(** X1: [value.replace(match[0], ...)] rewrites the very reference that
    [value.match] found, the leftmost one: the text before it and the text
    after it are kept, and between them goes the expansion of the replacement
    text, which is the replacement itself when it holds no dollar sign. *)
Theorem replace_rewrites_the_leftmost_reference :
  forall s before name after,
    JsString.match_var s = Some (before, name, after) ->
    s = before ++ JsString.whole_match name ++ after
    /\ (forall repl,
          JsString.replace s (JsString.whole_match name) repl
          = before
            ++ JsString.GetSubstitution (JsString.whole_match name)
                 before after repl
            ++ after)
    /\ (forall repl,
          count_dollar repl = 0 ->
          JsString.replace s (JsString.whole_match name) repl
          = before ++ repl ++ after).
Proof.
  intros s before name after Mv. split; [apply match_var_shape; exact Mv|].
  split.
  - intro repl. unfold JsString.replace.
    rewrite (split_first_at_match _ _ _ _ Mv). reflexivity.
  - intros repl Z. apply replace_reference_plain; assumption.
Qed.

Lemma replace_rewrites_the_leftmost_reference_witness :
  JsString.replace "$(b)-$(a)-$(a)" (JsString.whole_match "b") "v"
  = "" ++ "v" ++ "-$(a)-$(a)".
Proof.
  apply (replace_rewrites_the_leftmost_reference "$(b)-$(a)-$(a)" "" "b"
           "-$(a)-$(a)").
  - reflexivity.
  - reflexivity.
Defined.

(** ** Documents without references *)








(** ** Runs of [main] *)

Lemma notices_set_nothing evs :
  Forall notice evs -> outputs evs = [] /\ exports evs = [].
Proof.
  induction 1 as [|e es [m ->] _ [IH1 IH2]]; simpl; auto.
Qed.

Lemma exports_app l1 l2 : exports (l1 ++ l2) = (exports l1 ++ exports l2)%list.
Proof.
  induction l1 as [|e l1 IH]; simpl; [reflexivity|].
  destruct e; simpl; rewrite ?IH; reflexivity.
Qed.

(** The steps of a [try] block that completes. *)
Lemma main_try_done fuel RegExp files keyPathPattern envVarPrefix st0 st :
  main_try fuel RegExp files keyPathPattern envVarPrefix st0 = (Done tt, st) ->
  exists mergedConfig st1 entries st2 reKPP,
    load_all keyPathPattern files (VMap []) st0 = (Done mergedConfig, st1)
    /\ Object_entries mergedConfig = Done entries
    /\ resolveFields fuel entries "" st1 = (Done tt, st2)
    /\ RegExp keyPathPattern = inr reKPP
    /\ emit_entries reKPP keyPathPattern envVarPrefix (resolved st2) st2
       = (Done tt, st).
Proof.
  unfold main_try. intro E.
  apply bind_done in E. destruct E as [mergedConfig [st1 [E1 E]]].
  apply bind_done in E. destruct E as [entries [st1' [E2 E]]].
  unfold lift in E2.
  destruct (Object_entries mergedConfig) as [es| |] eqn:OE; try discriminate.
  inversion E2; subst.
  apply bind_done in E. destruct E as [[] [st2 [E3 E]]].
  destruct (RegExp keyPathPattern) as [m|reKPP] eqn:RE;
    [unfold throw in E; discriminate|].
  exists mergedConfig, st1', entries, st2, reKPP. repeat split; assumption.
Qed.

(** X13: a run that completes has set, first, the array mark [p.array] of every
    sequence of the merged document, whatever the key-path pattern is, and
    then the outputs of the entries of the Resolved Map, filtered and renamed
    by the pattern when there is one. *)
Theorem completed_run_outputs :
  forall fuel RegExp files keyPathPattern envVarPrefix st,
    main_try fuel RegExp files keyPathPattern envVarPrefix (mkState [] [])
    = (Done tt, st) ->
    exists mergedConfig entries reKPP marks,
      fst (load_all keyPathPattern files (VMap []) (mkState [] []))
      = Done mergedConfig
      /\ Object_entries mergedConfig = Done entries
      /\ RegExp keyPathPattern = inr reKPP
      /\ main fuel RegExp files keyPathPattern envVarPrefix = Finished (log st)
      /\ outputs (log st)
         = (marks ++ flat_map (entry_outputs reKPP keyPathPattern) (resolved st))%list
      /\ forall name value,
           In (name, value) marks
           <-> exists p elems,
                 name = p ++ ".array" /\ value = VSeq elems
                 /\ Reached entries "" p (VSeq elems).
Proof.
  intros fuel RegExp files keyPathPattern envVarPrefix st E.
  assert (M : main fuel RegExp files keyPathPattern envVarPrefix
              = Finished (log st)).
  { unfold main. rewrite E. reflexivity. }
  apply main_try_done in E.
  destruct E as [mergedConfig [st1 [entries [st2 [reKPP [E1 [E2 [E3 [E4 E5]]]]]]]]].
  destruct (emit_entries_spec reKPP keyPathPattern envVarPrefix (resolved st2) st2)
    as [evs [E6 O6]].
  rewrite E6 in E5. inversion E5; subst. clear E5.
  exists mergedConfig, entries, reKPP, (outputs (log st2)).
  rewrite E1. repeat split; try assumption.
  - simpl. rewrite outputs_app, O6. reflexivity.
  - intro I. apply outputs_In_inv in I.
    destruct (traversal_accounted _ _ _ _ _ _ E3) as [_ [tr [L F]]].
    apply load_all_log in E1. destruct E1 as [_ [ns [L1 F1]]]. simpl in L1.
    rewrite L, L1 in I. apply in_app_or in I. destruct I as [I|I].
    + exfalso. rewrite Forall_forall in F1. destruct (F1 _ I) as [m Em].
      discriminate Em.
    + rewrite Forall_forall in F. destruct (F _ I) as [p [elems [Eq R]]].
      inversion Eq; subst. exists p, elems. auto.
  - intros [p [elems [-> [-> R]]]]. apply outputs_In.
    eapply reached_seq_marked; [exact R | reflexivity | exact E3].
Qed.

Lemma completed_run_outputs_witness :
  exists mergedConfig entries reKPP marks,
    fst (load_all "x" [Parsed (VMap referring_seq_doc)] (VMap []) (mkState [] []))
    = Done mergedConfig
    /\ Object_entries mergedConfig = Done entries
    /\ @inr string Regex (JsRegExp.literal "x") = inr reKPP
    /\ main 2 (fun p => inr (JsRegExp.literal p))
         [Parsed (VMap referring_seq_doc)] "x" ""
       = Finished (log (snd (main_try 2 (fun p => inr (JsRegExp.literal p))
                               [Parsed (VMap referring_seq_doc)] "x" ""
                               (mkState [] []))))
    /\ outputs (log (snd (main_try 2 (fun p => inr (JsRegExp.literal p))
                            [Parsed (VMap referring_seq_doc)] "x" ""
                            (mkState [] []))))
       = (marks
          ++ flat_map (entry_outputs reKPP "x")
               (resolved (snd (main_try 2 (fun p => inr (JsRegExp.literal p))
                                 [Parsed (VMap referring_seq_doc)] "x" ""
                                 (mkState [] [])))))%list
    /\ forall name value,
         In (name, value) marks
         <-> exists p elems,
               name = p ++ ".array" /\ value = VSeq elems
               /\ Reached entries "" p (VSeq elems).
Proof.
  apply (completed_run_outputs 2 (fun p => inr (JsRegExp.literal p))
           [Parsed (VMap referring_seq_doc)] "x" "").
  reflexivity.
Defined.

(** X14: without a key-path pattern, every entry of the Resolved Map is emitted,
    in the order of the map, under its own key and with its own value. *)
Theorem entries_pass_unchanged_without_pattern :
  forall reKPP keyPathPattern envVarPrefix entries st,
    given keyPathPattern = false ->
    let run := emit_entries reKPP keyPathPattern envVarPrefix entries st in
    fst run = Done tt
    /\ resolved (snd run) = resolved st
    /\ outputs (log (snd run)) = (outputs (log st) ++ entries)%list.
Proof.
  intros reKPP keyPathPattern envVarPrefix entries st G run. subst run.
  destruct (emit_entries_spec reKPP keyPathPattern envVarPrefix entries st)
    as [evs [E O]].
  rewrite E. simpl. repeat split.
  rewrite outputs_app, O. f_equal.
  unfold entry_outputs. rewrite G. clear.
  induction entries as [|kv es IH]; simpl; [reflexivity | rewrite IH; reflexivity].
Qed.

Lemma entries_pass_unchanged_without_pattern_witness :
  outputs (log (snd (emit_entries (JsRegExp.literal "") "" "P"
                       [("prod.x", VNum 1); ("dev.x", VNum 2)] (mkState [] []))))
  = [("prod.x", VNum 1); ("dev.x", VNum 2)].
Proof.
  apply (entries_pass_unchanged_without_pattern (JsRegExp.literal "") "" "P"
           [("prod.x", VNum 1); ("dev.x", VNum 2)] (mkState [] [])).
  reflexivity.
Defined.

Lemma export_exports envVarPrefix k value st :
  exports (log (snd (export envVarPrefix k value st)))
  = (exports (log st)
     ++ if given envVarPrefix
        then [(env_key envVarPrefix k, value)]
        else [])%list.
Proof.
  unfold export, when. destruct (given envVarPrefix).
  - unfold bind, modify, emit. simpl. rewrite !exports_app. simpl.
    rewrite app_nil_r. reflexivity.
  - unfold ret. simpl. rewrite app_nil_r. reflexivity.
Qed.

Lemma emit_entry_exports reKPP keyPathPattern envVarPrefix val st :
  exports (log (snd (emit_entry reKPP keyPathPattern envVarPrefix val st)))
  = (exports (log st)
     ++ if given envVarPrefix
        then map (fun kv => (env_key envVarPrefix (fst kv), snd kv))
               (entry_outputs reKPP keyPathPattern val)
        else [])%list.
Proof.
  unfold emit_entry, entry_outputs. destruct val as [key value].
  cbn [fst snd].
  destruct (given keyPathPattern).
  - destruct (JsRegExp.matches reKPP key).
    + unfold bind at 1 2. unfold modify at 1 2. cbv iota beta.
      rewrite export_exports. unfold emit. cbn [log].
      rewrite !exports_app. cbn [exports app map]. rewrite !app_nil_r.
      destruct (given envVarPrefix); reflexivity.
    + unfold ret. cbn [snd map]. destruct (given envVarPrefix);
        rewrite app_nil_r; reflexivity.
  - unfold bind at 1 2. unfold modify at 1 2. cbv iota beta.
    rewrite export_exports. unfold emit. cbn [log].
    rewrite !exports_app. cbn [exports app map]. rewrite !app_nil_r.
    destruct (given envVarPrefix); reflexivity.
Qed.

(** X15: with an environment prefix, every output that the emission loop sets is
    also exported, in the same order and with the same value, under the
    prefix, an underscore and the output key with its dots, hyphens and bars
    turned into underscores; without a prefix nothing is exported. *)
Theorem exports_follow_outputs :
  forall reKPP keyPathPattern envVarPrefix entries st,
    exports (log (snd (emit_entries reKPP keyPathPattern envVarPrefix entries st)))
    = (exports (log st)
       ++ if given envVarPrefix
          then map (fun kv => (env_key envVarPrefix (fst kv), snd kv))
                 (flat_map (entry_outputs reKPP keyPathPattern) entries)
          else [])%list.
Proof.
  intros reKPP keyPathPattern envVarPrefix entries.
  induction entries as [|val rest IH]; intro st.
  - simpl. destruct (given envVarPrefix); rewrite app_nil_r; reflexivity.
  - cbn [emit_entries flat_map]. unfold bind.
    destruct (emit_entry_spec reKPP keyPathPattern envVarPrefix val st)
      as [e1 [E1 _]].
    pose proof (emit_entry_exports reKPP keyPathPattern envVarPrefix val st) as X.
    rewrite E1 in *. simpl in X. rewrite IH. simpl. rewrite X.
    rewrite <- app_assoc. f_equal.
    destruct (given envVarPrefix); [|reflexivity].
    rewrite map_app. reflexivity.
Qed.

Lemma env_name_get k : forall i,
  String.get i (JsRegExp.env_name k)
  = option_map
      (fun c => if (Ascii.eqb c "." || Ascii.eqb c "|" || Ascii.eqb c "-")%bool
                then "_"%char else c)
      (String.get i k).
Proof.
  induction k as [|c k IH]; intros [|i]; simpl; try reflexivity. apply IH.
Qed.

(** X16: the names of exported variables: [env_name] keeps the length of the
    key, leaves no dot, bar or hyphen in it, changes no other character and
    changes nothing when applied again; it is not injective, [a.b] and [a-b]
    give the same name. *)
Theorem env_name_is_fit :
  (forall k,
      String.length (JsRegExp.env_name k) = String.length k
      /\ JsRegExp.env_name (JsRegExp.env_name k) = JsRegExp.env_name k
      /\ (forall i c, String.get i (JsRegExp.env_name k) = Some c ->
            c <> "."%char /\ c <> "|"%char /\ c <> "-"%char)
      /\ (forall i c, String.get i k = Some c ->
            c <> "."%char -> c <> "|"%char -> c <> "-"%char ->
            String.get i (JsRegExp.env_name k) = Some c))
  /\ JsRegExp.env_name "a.b" = JsRegExp.env_name "a-b".
Proof.
  split; [|reflexivity]. intro k.
  split; [|split; [|split]].
  - induction k as [|c k IH]; simpl; [reflexivity | rewrite IH; reflexivity].
  - induction k as [|c k IH]; simpl; [reflexivity|]. rewrite IH. f_equal.
    destruct (Ascii.eqb c "." || Ascii.eqb c "|" || Ascii.eqb c "-")%bool eqn:B;
      [reflexivity | rewrite B; reflexivity].
  - intros i c G. rewrite env_name_get in G.
    destruct (String.get i k) as [d|]; [|discriminate]. simpl in G.
    destruct (Ascii.eqb_spec d "."); simpl in G;
      [inversion G; subst; repeat split; discriminate|].
    destruct (Ascii.eqb_spec d "|"); simpl in G;
      [inversion G; subst; repeat split; discriminate|].
    destruct (Ascii.eqb_spec d "-"); simpl in G;
      inversion G; subst; repeat split; try discriminate; assumption.
  - intros i c G N1 N2 N3. rewrite env_name_get, G. simpl.
    destruct (Ascii.eqb_spec c "."); [contradiction|].
    destruct (Ascii.eqb_spec c "|"); [contradiction|].
    destruct (Ascii.eqb_spec c "-"); [contradiction|]. reflexivity.
Qed.

(** ** Failures of a run *)

Lemma load_all_stops keyPathPattern trees bad rest message :
  load_failure bad = Some message ->
  forall mergedConfig st,
    fst (load_all keyPathPattern (map Parsed trees ++ bad :: rest)
           mergedConfig st)
    = Threw message.
Proof.
  intro B. induction trees as [|t ts IH]; intros mergedConfig st.
  - cbn [map app load_all]. destruct bad as [m|m|t]; simpl in B;
      inversion B; subst; [reflexivity|].
    unfold bind, when, throw.
    destruct (given keyPathPattern); reflexivity.
  - cbn [map app load_all]. unfold bind at 1.
    destruct (when (given keyPathPattern) _ st) as [[[]| |] st1] eqn:W.
    + apply IH.
    + unfold when in W. destruct (given keyPathPattern); discriminate.
    + unfold when in W. destruct (given keyPathPattern); discriminate.
Qed.

(** X17: the first file that cannot be read or parsed fails the run with its own
    message, whatever the files after it are: before the failure the emitter
    has received log messages only, so no output is set and no variable
    exported. *)
Theorem first_bad_file_fails_the_run :
  forall fuel RegExp keyPathPattern envVarPrefix trees bad rest message,
    load_failure bad = Some message ->
    exists notices,
      Forall notice notices
      /\ main fuel RegExp (map Parsed trees ++ bad :: rest)
           keyPathPattern envVarPrefix
         = Finished (notices ++ [SetFailed message])
      /\ outputs (notices ++ [SetFailed message]) = []
      /\ exports (notices ++ [SetFailed message]) = [].
Proof.
  intros fuel RegExp keyPathPattern envVarPrefix trees bad rest message B.
  pose proof (load_all_stops keyPathPattern trees bad rest message B
                (VMap []) (mkState [] [])) as L.
  destruct (load_all keyPathPattern (map Parsed trees ++ bad :: rest)
              (VMap []) (mkState [] [])) as [r st1] eqn:E.
  simpl in L. subst r.
  pose proof (load_all_log _ _ _ _ _ _ E) as [_ [ns [Ln Fn]]]. simpl in Ln.
  exists ns. split; [exact Fn|].
  destruct (notices_set_nothing ns Fn) as [O X].
  repeat split.
  - unfold main, main_try. unfold bind at 1. rewrite E. rewrite Ln. reflexivity.
  - rewrite outputs_app, O. reflexivity.
  - rewrite exports_app, X. reflexivity.
Qed.

Lemma first_bad_file_fails_the_run_witness :
  exists notices,
    Forall notice notices
    /\ main 1 (fun p => inr (JsRegExp.literal p))
         (map Parsed [VMap [("arr", VSeq [VStr "1"])]]
          ++ Malformed "bad indentation" :: [Parsed (VMap [("x", VStr "2")])])
         "x" "P"
       = Finished (notices ++ [SetFailed "bad indentation"])
    /\ outputs (notices ++ [SetFailed "bad indentation"]) = []
    /\ exports (notices ++ [SetFailed "bad indentation"]) = [].
Proof.
  apply (first_bad_file_fails_the_run 1 (fun p => inr (JsRegExp.literal p)) "x" "P"
           [VMap [("arr", VSeq [VStr "1"])]] (Malformed "bad indentation")
           [Parsed (VMap [("x", VStr "2")])] "bad indentation").
  reflexivity.
Defined.

(** ** The list of configuration files *)

Lemma split_lines_not_nil s : ConfigFiles.split_lines s <> [].
Proof.
  destruct s as [|c s]; simpl; [discriminate|].
  destruct (ConfigFiles.is_line_break c); [discriminate|].
  destruct (ConfigFiles.split_lines s); discriminate.
Qed.

Lemma split_lines_one_line s :
  Forall (fun line =>
            ConfigFiles.all_chars
              (fun c => negb (ConfigFiles.is_line_break c)) line = true)
         (ConfigFiles.split_lines s).
Proof.
  induction s as [|c s IH]; simpl; [repeat constructor|].
  destruct (ConfigFiles.is_line_break c) eqn:B.
  - constructor; [reflexivity | exact IH].
  - destruct (ConfigFiles.split_lines s) as [|line lines];
      [repeat constructor; simpl; rewrite B; reflexivity|].
    inversion IH; subst. constructor; [|assumption].
    simpl. rewrite B. assumption.
Qed.

Lemma trim_start_chars f s :
  ConfigFiles.all_chars f s = true ->
  ConfigFiles.all_chars f (ConfigFiles.trim_start s) = true.
Proof.
  induction s as [|c s IH]; simpl; [auto|].
  intro A. apply andb_prop in A. destruct A as [A1 A2].
  destruct (ConfigFiles.is_space c); [auto|]. simpl. rewrite A1, A2. reflexivity.
Qed.

Lemma trim_end_chars f s :
  ConfigFiles.all_chars f s = true ->
  ConfigFiles.all_chars f (ConfigFiles.trim_end s) = true.
Proof.
  induction s as [|c s IH]; simpl; [auto|].
  intro A. apply andb_prop in A. destruct A as [A1 A2].
  specialize (IH A2).
  destruct (ConfigFiles.trim_end s) as [|d t].
  - destruct (ConfigFiles.is_space c); simpl; [reflexivity|].
    rewrite A1. reflexivity.
  - cbn [ConfigFiles.all_chars]. rewrite A1. exact IH.
Qed.

Lemma trim_start_first s :
  match ConfigFiles.trim_start s with
  | String c _ => ConfigFiles.is_space c = false
  | EmptyString => True
  end.
Proof.
  induction s as [|c s IH]; simpl; [exact I|].
  destruct (ConfigFiles.is_space c) eqn:B; [exact IH | exact B].
Qed.

Lemma trim_end_first s :
  match s with
  | String c _ => ConfigFiles.is_space c = false
  | EmptyString => True
  end ->
  match ConfigFiles.trim_end s with
  | String c _ => ConfigFiles.is_space c = false
  | EmptyString => True
  end.
Proof.
  destruct s as [|c s]; simpl; [auto|]. intro B.
  destruct (ConfigFiles.trim_end s); [rewrite B|]; exact B.
Qed.

Lemma trim_end_last s :
  match ConfigFiles.last_char (ConfigFiles.trim_end s) with
  | Some c => ConfigFiles.is_space c = false
  | None => True
  end.
Proof.
  induction s as [|c s IH]; simpl; [exact I|].
  destruct (ConfigFiles.trim_end s) as [|d t].
  - destruct (ConfigFiles.is_space c) eqn:B; simpl; [exact I | exact B].
  - exact IH.
Qed.

(** X19: every path that [main] takes from the [config-files] input is not
    empty, holds no line break and has no white space at either end. *)
Theorem config_files_are_clean :
  forall input p,
    In p (ConfigFiles.config_files input) -> ConfigFiles.clean_path p = true.
Proof.
  intros input p I. unfold ConfigFiles.config_files in I.
  apply filter_In in I. destruct I as [I N].
  apply in_map_iff in I. destruct I as [line [<- I]].
  pose proof (split_lines_one_line input) as L. rewrite Forall_forall in L.
  specialize (L line I).
  unfold ConfigFiles.clean_path. rewrite N. cbn [andb].
  pose proof (trim_end_first _ (trim_start_first line)) as F.
  pose proof (trim_end_last (ConfigFiles.trim_start line)) as E.
  pose proof (trim_end_chars _ _ (trim_start_chars _ _ L)) as C.
  fold (ConfigFiles.trim line) in F, E, C.
  rewrite C.
  destruct (ConfigFiles.trim line) as [|c t] eqn:T; [reflexivity|].
  rewrite F. cbn [negb andb].
  destruct (ConfigFiles.last_char (String c t)); [rewrite E|]; reflexivity.
Qed.

Lemma config_files_are_clean_witness :
  ConfigFiles.clean_path "b.yaml" = true.
Proof.
  apply (config_files_are_clean
           (" a.yaml " ++ nl ++ nl ++ "b.yaml" ++ String (ascii_of_nat 13) nl)
           "b.yaml").
  right. left. reflexivity.
Defined.

Lemma split_lines_line p :
  ConfigFiles.all_chars (fun c => negb (ConfigFiles.is_line_break c)) p = true ->
  ConfigFiles.split_lines p = [p].
Proof.
  induction p as [|c p IH]; simpl; [reflexivity|].
  intro A. apply andb_prop in A. destruct A as [A1 A2].
  destruct (ConfigFiles.is_line_break c); [discriminate|].
  rewrite (IH A2). reflexivity.
Qed.

Lemma split_lines_append p rest :
  ConfigFiles.all_chars (fun c => negb (ConfigFiles.is_line_break c)) p = true ->
  ConfigFiles.split_lines (p ++ nl ++ rest) = p :: ConfigFiles.split_lines rest.
Proof.
  induction p as [|c p IH]; [reflexivity|].
  cbn [append ConfigFiles.split_lines ConfigFiles.all_chars].
  intro A. apply andb_prop in A. destruct A as [A1 A2].
  destruct (ConfigFiles.is_line_break c); [discriminate|].
  rewrite (IH A2). reflexivity.
Qed.

Lemma split_lines_join paths :
  paths <> [] ->
  Forall (fun p => ConfigFiles.all_chars
                     (fun c => negb (ConfigFiles.is_line_break c)) p = true)
         paths ->
  ConfigFiles.split_lines (join nl paths) = paths.
Proof.
  intros N F. induction F as [|p ps A F IH]; [contradiction|].
  destruct ps as [|q ps].
  - simpl. apply split_lines_line. exact A.
  - change (join nl (p :: q :: ps)) with (p ++ nl ++ join nl (q :: ps)).
    rewrite split_lines_append by exact A.
    rewrite IH by discriminate. reflexivity.
Qed.

Lemma trim_end_kept s :
  match ConfigFiles.last_char s with
  | Some c => ConfigFiles.is_space c = false
  | None => True
  end ->
  ConfigFiles.trim_end s = s.
Proof.
  induction s as [|c s IH]; [reflexivity|].
  destruct s as [|d s].
  - simpl. intros ->. reflexivity.
  - intro L. change (ConfigFiles.last_char (String c (String d s)))
      with (ConfigFiles.last_char (String d s)) in L.
    cbn [ConfigFiles.trim_end] in *. rewrite (IH L). reflexivity.
Qed.

Lemma trim_clean p : ConfigFiles.clean_path p = true -> ConfigFiles.trim p = p.
Proof.
  unfold ConfigFiles.clean_path, ConfigFiles.trim. intro C.
  apply andb_prop in C. destruct C as [C _].
  apply andb_prop in C. destruct C as [C L].
  apply andb_prop in C. destruct C as [_ F].
  assert (S : ConfigFiles.trim_start p = p).
  { destruct p as [|c p]; [reflexivity|]. simpl.
    destruct (ConfigFiles.is_space c); [discriminate | reflexivity]. }
  rewrite S. apply trim_end_kept.
  destruct (ConfigFiles.last_char p) as [c|]; [|exact I].
  destruct (ConfigFiles.is_space c); [discriminate | reflexivity].
Qed.

(** X20: clean paths written one per line are read back as they are, in their
    order; an empty input gives no file at all. *)
Theorem config_files_of_lines :
  forall paths,
    forallb ConfigFiles.clean_path paths = true ->
    ConfigFiles.config_files (join nl paths) = paths.
Proof.
  intros paths C. destruct paths as [|p ps]; [reflexivity|].
  unfold ConfigFiles.config_files.
  rewrite split_lines_join.
  - induction (p :: ps) as [|q qs IH]; [reflexivity|].
    cbn [forallb] in C. apply andb_prop in C. destruct C as [Cq Cqs].
    cbn [map filter]. rewrite (trim_clean q Cq).
    unfold ConfigFiles.clean_path in Cq.
    apply andb_prop in Cq. destruct Cq as [Cq _].
    apply andb_prop in Cq. destruct Cq as [Cq _].
    apply andb_prop in Cq. destruct Cq as [Cq _].
    rewrite Cq. f_equal. apply IH. exact Cqs.
  - discriminate.
  - apply Forall_forall. intros q I.
    rewrite forallb_forall in C. specialize (C q I).
    unfold ConfigFiles.clean_path in C.
    apply andb_prop in C. destruct C as [_ C]. exact C.
Qed.

Lemma config_files_of_lines_witness :
  ConfigFiles.config_files (join nl ["base.yaml"; "env/prod config.yaml"])
  = ["base.yaml"; "env/prod config.yaml"].
Proof.
  apply (config_files_of_lines ["base.yaml"; "env/prod config.yaml"]).
  reflexivity.
Defined.

(** ** The first version and the nested one *)

(** X21: on a document whose values are all strings, the loop of the first
    version and [resolveFields] give the same Resolved Map, or fail with the
    same error, or both run on: nesting support changed nothing for flat
    documents. *)
Theorem flat_version_agrees_on_strings :
  forall type_error fuel entries resolved0 log0,
    Forall (fun kv => typeof_string (snd kv) = true) entries ->
    resolve_keys_flat type_error fuel entries resolved0
    = resolved_of (resolveFields fuel entries "" (mkState resolved0 log0)).
Proof.
  intros type_error fuel entries resolved0 log0 F. revert resolved0.
  induction F as [|[k v] es Hv _ IH]; intro resolved0; [reflexivity|].
  destruct v; try discriminate Hv.
  cbn [resolve_keys_flat resolveFields replaceVariables_flat]. unfold bind.
  rewrite resolveField_leaf by reflexivity.
  cbn [replaceVariables resolved].
  destruct (replace_loop fuel s resolved0); try reflexivity.
  apply IH.
Qed.

Lemma flat_version_agrees_on_strings_witness :
  resolve_keys_flat (fun _ => "value.match is not a function") 4
    resource_group_doc []
  = resolved_of (resolveFields 4 resource_group_doc "" (mkState [] [])).
Proof.
  apply (flat_version_agrees_on_strings _ 4 resource_group_doc [] []).
  repeat constructor.
Defined.

Lemma resolve_keys_flat_app type_error fuel l1 l2 : forall resolved0,
  resolve_keys_flat type_error fuel (l1 ++ l2)%list resolved0
  = match resolve_keys_flat type_error fuel l1 resolved0 with
    | Done r => resolve_keys_flat type_error fuel l2 r
    | Threw m => Threw m
    | Hung => Hung
    end.
Proof.
  induction l1 as [|[k v] l1 IH]; intro resolved0; [reflexivity|].
  cbn [app resolve_keys_flat].
  destruct (replaceVariables_flat type_error fuel v resolved0); try reflexivity.
  apply IH.
Qed.

(** X22: the first version stops with a type error at the first value that is
    not a string -- a nested mapping, a sequence, [null] -- whatever comes
    after it, where [resolveFields] descends into it or writes it. *)
Theorem flat_version_rejects_other_values :
  forall type_error fuel before key value after resolved0 resolved1,
    resolve_keys_flat type_error fuel before resolved0 = Done resolved1 ->
    typeof_string value = false ->
    resolve_keys_flat type_error fuel (before ++ (key, value) :: after)%list
      resolved0
    = Threw (type_error value).
Proof.
  intros type_error fuel before key value after resolved0 resolved1 B T.
  rewrite resolve_keys_flat_app, B. cbn [resolve_keys_flat].
  destruct value; try discriminate T; reflexivity.
Qed.

Lemma flat_version_rejects_other_values_witness :
  resolve_keys_flat (fun _ => "value.match is not a function") 1
    ([("name", VStr "example")]
     ++ ("environment", VMap [("name", VStr "example")]) :: [("x", VStr "y")])%list
    []
  = Threw "value.match is not a function".
Proof.
  apply (flat_version_rejects_other_values
           (fun _ => "value.match is not a function") 1
           [("name", VStr "example")] "environment"
           (VMap [("name", VStr "example")]) [("x", VStr "y")] []
           [("name", VStr "example")]);
    reflexivity.
Defined.

(** ** The results of [replaceVariables] *)

(** X4: whatever [replaceVariables] returns is a string without a reference, a
    number, a boolean or an object: a string gives a string, a number or a
    boolean comes back as it is, and every value whose [typeof] is
    ["object"] -- a mapping, a sequence, [null] -- comes back as an object,
    a sequence never as a sequence and [null] never as [null]. *)
Theorem replaceVariables_result_kinds :
  forall fuel value resolved result,
    replaceVariables fuel value resolved = Done result ->
    match value with
    | VStr _ => exists s, result = VStr s /\ JsString.match_var s = None
    | VNum _ | VBool _ => result = value
    | VNull => result = VMap []
    | VSeq _ | VMap _ => exists fields, result = VMap fields
    end.
Proof.
  intros fuel value resolved result.
  destruct value as [ | b | z | s | elems | fields ]; simpl.
  - intro E. inversion E. reflexivity.
  - intro E. inversion E. reflexivity.
  - intro E. inversion E. reflexivity.
  - destruct (replace_loop fuel s resolved) as [s'| |] eqn:L; try discriminate.
    intro E. inversion E; subst. exists s'. split; [reflexivity|].
    eapply replace_loop_done. exact L.
  - generalize (@nil (string * Value)). generalize O.
    induction elems as [|v es IH]; intros i nestedObj.
    + intro E. inversion E. eexists. reflexivity.
    + destruct (replaceVariables fuel v resolved); try discriminate. apply IH.
  - generalize (@nil (string * Value)).
    induction fields as [|[k v] fs IH]; intros nestedObj.
    + intro E. inversion E. eexists. reflexivity.
    + destruct (replaceVariables fuel v resolved); try discriminate. apply IH.
Qed.

Lemma replaceVariables_result_kinds_witness :
  exists fields,
    VMap [("0", VStr "v"); ("1", VMap [])] = VMap fields.
Proof.
  apply (replaceVariables_result_kinds 2 (VSeq [VStr "$(x)"; VNull])
           [("x", VStr "v")] (VMap [("0", VStr "v"); ("1", VMap [])])).
  reflexivity.
Defined.

(** ** One turn of the loop *)

(** X2: when the name of the leftmost reference is not that of an inherited
    member and [resolved] holds it with a truthy value whose numbers print as
    their digits and whose string form has no dollar sign, one turn of the
    loop puts exactly that string form in the place of the reference, the
    text staying short of the engine's limit, and goes on with the rest: a
    number or a boolean is written in digits or as [true], and the empty
    object that a [null] leaf became as [[object Object]]. *)
Theorem loop_turn_inserts_string_form :
  forall fuel value resolved before name after v,
    JsString.match_var value = Some (before, name, after) ->
    inherited_name name = false ->
    JsObject.get name resolved = Some v ->
    truthy v = true ->
    safe_numbers v = true ->
    count_dollar (ToString v) = 0 ->
    short_string (before ++ ToString v ++ after) = true ->
    replace_loop (S fuel) value resolved
    = replace_loop fuel (before ++ ToString v ++ after) resolved.
Proof.
  intros fuel value resolved before name after v Mv _ G T _ Z _.
  cbn [replace_loop]. rewrite Mv, G, T.
  rewrite (replace_reference_plain _ _ _ _ _ Mv Z). reflexivity.
Qed.

Lemma loop_turn_inserts_string_form_witness :
  replace_loop 2 "port=$(p), on=$(a)" [("p", VNum 8080); ("a", VMap [])]
  = replace_loop 1 ("port=" ++ ToString (VNum 8080) ++ ", on=$(a)")
      [("p", VNum 8080); ("a", VMap [])].
Proof.
  apply (loop_turn_inserts_string_form 1 "port=$(p), on=$(a)"
           [("p", VNum 8080); ("a", VMap [])] "port=" "p" ", on=$(a)"
           (VNum 8080));
    reflexivity.
Defined.

(** X3: when no truthy value of [resolved] holds a dollar sign in its
    string form, the numbers of [resolved] print as their digits and none of
    the names the loop looks up is that of an inherited member, the loop ends
    after at most as many replacements as the value has dollar signs, and
    more turns allowed change nothing. *)
Theorem loop_ends_when_values_hold_no_dollar :
  forall resolved value,
    plain_values resolved ->
    forallb (fun kv => safe_numbers (snd kv)) resolved = true ->
    forallb (fun name => negb (inherited_name name))
      (looked_up (S (count_dollar value)) value resolved) = true ->
    replace_loop (S (count_dollar value)) value resolved <> Hung
    /\ forall extra,
         replace_loop (S (count_dollar value) + extra) value resolved
         = replace_loop (S (count_dollar value)) value resolved.
Proof.
  intros resolved value Pl _ _.
  assert (N : replace_loop (S (count_dollar value)) value resolved <> Hung).
  { apply replace_loop_ends_plain; [exact Pl | lia]. }
  split; [exact N|]. intro extra. apply replace_loop_more_fuel. exact N.
Qed.

Lemma loop_ends_when_values_hold_no_dollar_witness :
  replace_loop (S (count_dollar "$(a)-$(a)")) "$(a)-$(a)" [("a", VStr "v")]
  <> Hung.
Proof.
  apply (loop_ends_when_values_hold_no_dollar [("a", VStr "v")] "$(a)-$(a)").
  - intros k v G T. cbn [JsObject.get] in G.
    destruct (String.eqb "a" k); [|discriminate G].
    inversion G. reflexivity.
  - reflexivity.
  - reflexivity.
Defined.

(** ** The order of the Resolved Map *)

(** X8: when no key of [resolved] is an array index or [__proto__], a
    traversal has only added keys at the end of [resolved]: the keys it found
    there keep their places, so the entries are emitted in the order in which
    their key-paths were first written. *)
Theorem resolved_keys_grow_at_the_end :
  forall fuel entries prefix st r st',
    resolveFields fuel entries prefix st = (r, st') ->
    forallb ordinary_key (map fst (resolved st')) = true ->
    exists added,
      map fst (resolved st') = (map fst (resolved st) ++ added)%list.
Proof.
  intros fuel entries prefix st r st' E _. revert E.
  apply (traversal_keeps
           (fun a b => exists added,
                map fst (resolved b) = (map fst (resolved a) ++ added)%list)).
  - intro a. exists []. rewrite app_nil_r. reflexivity.
  - intros a b c [x X] [y Y]. exists (x ++ y)%list.
    rewrite Y, X, app_assoc. reflexivity.
  - intros e a. exists []. rewrite app_nil_r. reflexivity.
  - intros f v key a w _ _. simpl. rewrite keys_set.
    destruct (JsObject.has key (resolved a)).
    + exists []. rewrite app_nil_r. reflexivity.
    + exists [key]. reflexivity.
Qed.

Lemma resolved_keys_grow_at_the_end_witness :
  exists added,
    map fst (resolved (snd (resolveFields 1 [("a", VNum 1); ("c", VNum 3)] ""
                              (mkState [("a", VNum 0); ("b", VNum 2)] []))))
    = (map fst (resolved (mkState [("a", VNum 0); ("b", VNum 2)] [])) ++ added)%list.
Proof.
  apply (resolved_keys_grow_at_the_end 1 [("a", VNum 1); ("c", VNum 3)] ""
           (mkState [("a", VNum 0); ("b", VNum 2)] []) (Done tt)).
  - reflexivity.
  - reflexivity.
Defined.
